(** * Distributed checkpoint/restart extension (chainermn/extensions/checkpoint.py)

    A shallow embedding of [_DistCPRExtension] and of the module-level helpers
    [_save], [_load] and [_maybe_makedirs], together with the properties of the
    filename codec, of the quorum round and of the checkpoint life cycle.

    Conventions of the embedding.
    - Python [str] values are [string]s; every character is an [ascii], so the
      model covers the strings of code points below 256.
    - Python [int] values are [Z].
    - An exception is a value of [exn]; a call either returns or raises
      ([result]).
    - The checkpoint directory lives in a two-level file system: a finite map
      from directory paths to directories, each a finite map from entry names
      to the bytes of the file.  [os.path.join(path, f)] addresses entry [f]
      of directory [path]. *)

From Stdlib Require Import Ascii String.
From stdpp Require Import gmap strings pretty sorting list.

Open Scope Z_scope.

(** ** Exceptions and results *)

Inductive exn : Type :=
  | ValueError
  | TypeError
  | RuntimeError
  | AssertionError
  | OSError_EEXIST
  | OSError_ENOENT
  | OSError_EBADF
  | IOError.

Inductive result (A : Type) : Type :=
  | Ok (a : A)
  | Raise (e : exn).
Arguments Ok {A} a.
Arguments Raise {A} e.

(** ** Python string primitives used by the codec *)

Module Py.

(** [s.split(sep)] for a one-character separator: always a non-empty list,
    one more field than there are separators. *)
Fixpoint split (sep : ascii) (s : string) : list string :=
  match s with
  | EmptyString => [EmptyString]
  | String c s' =>
      if Ascii.eqb c sep then EmptyString :: split sep s'
      else match split sep s' with
           | h :: t => String c h :: t
           | [] => [String c EmptyString]
           end
  end.

(** White space as [int()] skips it around a number: TAB, LF, VT, FF, CR
    and space, and of the code points from 128 to 255 the two that Unicode
    counts as white space, NEL (133) and NBSP (160).  The separators FS, GS,
    RS and US (28 to 31) are not skipped, although [str.strip] removes
    them. *)
Definition is_space (c : ascii) : bool :=
  let n := nat_of_ascii c in
  ((9 <=? n) && (n <=? 13) || (n =? 32) || (n =? 133) || (n =? 160))%nat.

Definition is_digit (c : ascii) : bool :=
  let n := nat_of_ascii c in ((48 <=? n) && (n <=? 57))%nat.

Definition digit_value (c : ascii) : N := (N_of_ascii c - 48)%N.

Fixpoint lstrip (s : string) : string :=
  match s with
  | String c s' => if is_space c then lstrip s' else s
  | EmptyString => EmptyString
  end.

(** Removes trailing white space; [None] stands for a string that is all
    white space. *)
Fixpoint rstrip_aux (s : string) : option string :=
  match s with
  | EmptyString => None
  | String c s' =>
      match rstrip_aux s' with
      | Some r => Some (String c r)
      | None => if is_space c then None else Some (String c EmptyString)
      end
  end.

Definition rstrip (s : string) : string := default EmptyString (rstrip_aux s).

Definition strip (s : string) : string := rstrip (lstrip s).

(** The digit part of a decimal literal: [digit ("_"? digit)*].
    [after_digit] tells whether the previous character was a digit, which
    is where an underscore or the end of the literal may come. *)
Fixpoint digits (acc : N) (after_digit : bool) (s : string) : option N :=
  match s with
  | EmptyString => if after_digit then Some acc else None
  | String c s' =>
      if is_digit c then digits (acc * 10 + digit_value c)%N true s'
      else if Ascii.eqb c "_" && after_digit then digits acc false s'
      else None
  end.

(** [int(s)] in base ten: surrounding white space, one optional sign, then
    the digits.  [None] stands for [ValueError]. *)
Definition int (s : string) : option Z :=
  match strip s with
  | EmptyString => None
  | String c s' =>
      if Ascii.eqb c "-" then (λ n, - Z.of_N n) <$> digits 0 false s'
      else if Ascii.eqb c "+" then Z.of_N <$> digits 0 false s'
      else Z.of_N <$> digits 0 false (String c s')
  end.

(** [c in s] for a character [c]. *)
Fixpoint contains (c : ascii) (s : string) : bool :=
  match s with
  | EmptyString => false
  | String c' s' => Ascii.eqb c' c || contains c s'
  end.

(** Every character of [s] satisfies [p]. *)
Fixpoint all_chars (p : ascii → bool) (s : string) : bool :=
  match s with
  | EmptyString => true
  | String c s' => p c && all_chars p s'
  end.

(** A character of a printed integer: a digit or the minus sign. *)
Definition numeric_char (c : ascii) : bool := is_digit c || Ascii.eqb c "-".

(** ['{:d}'.format(z)]: the decimal digits, with a minus sign for a
    negative number. *)
Definition format_d (z : Z) : string := pretty z.

End Py.


(** ** The controller object *)

(** The fields of [_DistCPRExtension] that the checkpoint logic reads and
    writes.  [comm_rank] is [self.comm.rank]; [stats] only records wall-clock
    timings and is left out. *)
Record DistCPRExtension : Type := {
  name : string;
  cp_interval : Z;
  gc_interval : Z;
  comm_rank : Z;
  files : list string;
  path : option string
}.

Definition with_files (self : DistCPRExtension) (fl : list string) : DistCPRExtension :=
  {| name := name self; cp_interval := cp_interval self;
     gc_interval := gc_interval self; comm_rank := comm_rank self;
     files := fl; path := path self |}.

Definition with_path (self : DistCPRExtension) (p : option string) : DistCPRExtension :=
  {| name := name self; cp_interval := cp_interval self;
     gc_interval := gc_interval self; comm_rank := comm_rank self;
     files := files self; path := p |}.

(** ** The filename codec *)

(** ['{:s}.{:d}.{:d}'.format(self.name, self.comm.rank, iteration)] *)
Definition _filename (self : DistCPRExtension) (iteration : Z) : string :=
  name self +:+ "." +:+ Py.format_d (comm_rank self) +:+ "." +:+ Py.format_d iteration.

Definition _filenames (self : DistCPRExtension) (iterations : list Z) : list string :=
  _filename self <$> iterations.

(** A bare [return] gives [None]; [int] raises [ValueError]. *)
Definition _parse_filename (self : DistCPRExtension) (filename : string)
  : result (option (string * Z * Z)) :=
  match Py.split "." filename with
  | [nm; rank; iter] =>
      if negb (String.eqb nm (name self)) then Ok None
      else match Py.int rank with
           | None => Raise ValueError
           | Some r =>
               match Py.int iter with
               | None => Raise ValueError
               | Some i => Ok (Some (nm, r, i))
               end
           end
  | _ => Ok None
  end.

(** The list comprehension stops at the first element that raises. *)
Fixpoint _parse_filenames (self : DistCPRExtension) (filenames : list string)
  : result (list (option (string * Z * Z))) :=
  match filenames with
  | [] => Ok []
  | f :: rest =>
      match _parse_filename self f with
      | Raise e => Raise e
      | Ok t =>
          match _parse_filenames self rest with
          | Raise e => Raise e
          | Ok ts => Ok (t :: ts)
          end
      end
  end.

(** [set([i for _, _, i in parsed])] first builds the list: unpacking a
    [None] entry raises [TypeError]. *)
Fixpoint unpack_iterations (parsed : list (option (string * Z * Z))) : result (list Z) :=
  match parsed with
  | [] => Ok []
  | None :: _ => Raise TypeError
  | Some (_, _, i) :: rest =>
      match unpack_iterations rest with
      | Raise e => Raise e
      | Ok l => Ok (i :: l)
      end
  end.

(** [set([i for _, _, i in self._parse_filenames(files)])] *)
Definition iteration_set (self : DistCPRExtension) (fl : list string) : result (gset Z) :=
  match _parse_filenames self fl with
  | Raise e => Raise e
  | Ok parsed =>
      match unpack_iterations parsed with
      | Raise e => Raise e
      | Ok l => Ok (list_to_set l)
      end
  end.

(** The loop [for files in file_lists[1:]: iters0 &= set(...)]. *)
Fixpoint intersect_rest (self : DistCPRExtension) (iters0 : gset Z)
    (rest : list (list string)) : result (gset Z) :=
  match rest with
  | [] => Ok iters0
  | fl :: rest' =>
      match iteration_set self fl with
      | Raise e => Raise e
      | Ok iters => intersect_rest self (iters0 ∩ iters) rest'
      end
  end.

(** [l[start:]] with Python's treatment of a negative or too large start. *)
Definition slice_from {A : Type} (start : Z) (l : list A) : list A :=
  let n := Z.of_nat (length l) in
  let i := if decide (start < 0) then Z.max (start + n) 0 else Z.min start n in
  drop (Z.to_nat i) l.

(** [iters0 = list(iters0); iters0.sort(); iters0[-self.cp_interval:]] *)
Definition window (cp : Z) (iters0 : gset Z) : list Z :=
  slice_from (- cp) (merge_sort Z.le (elements iters0)).

(** The set the coordinator holds after the loop, for a gathered sequence
    [first :: rest] (lines 175-180). *)
Definition surviving (self : DistCPRExtension) (first : list string)
    (rest : list (list string)) : result (gset Z) :=
  match iteration_set self first with
  | Raise e => Raise e
  | Ok iters0 => intersect_rest self iters0 rest
  end.

(** What the coordinator computes from a non-empty gathered sequence
    (lines 175-184). *)
Definition coordinate (self : DistCPRExtension) (first : list string)
    (rest : list (list string)) : result (list Z) :=
  match surviving self first rest with
  | Raise e => Raise e
  | Ok iters0 => Ok (window (cp_interval self) iters0)
  end.

(** ** The process state and its monad *)

(** The object handed to [_save] and [_load]: [out] is [trainer.out], and
    [snapshot] the bytes its serialisation consists of. *)
Record trainer : Type := { out : string; snapshot : string }.

(** The optional consistency handle (a multi-node optimizer). *)
Record optimizer : Type := { needs_broadcast : bool }.

Abbreviation filesystem := (gmap string (gmap string string)).

(** The choices the outside world makes during one call of a method:
    the random characters [mkstemp] appends, whether serialisation fails
    (after how many bytes), what [gather] returns on this rank and what the
    root's [bcast] delivers on a rank other than the root. *)
Record environment : Type := {
  mkstemp_suffix : string;
  save_fault : option nat;
  gather_out : option (list (list string));
  bcast_in : list Z
}.

(** [seen] records every earlier file-system state, newest first: that is
    what another process could have observed. *)
Record state : Type := {
  self : DistCPRExtension;
  fs : filesystem;
  open_fds : gset nat;
  seen : list filesystem;
  env : environment
}.

Definition M (A : Type) : Type := state → result A * state.

#[export] Instance M_ret : MRet M := λ A a st, (Ok a, st).
#[export] Instance M_bind : MBind M := λ A B f m st,
  match m st with
  | (Ok a, st') => f a st'
  | (Raise e, st') => (Raise e, st')
  end.

Definition raise {A : Type} (e : exn) : M A := λ st, (Raise e, st).
Definition lift {A : Type} (r : result A) : M A := λ st, (r, st).
Definition get : M state := λ st, (Ok st, st).

(** [try: body except Exception as e: handler e] *)
Definition try_except {A : Type} (body : M A) (handler : exn → M A) : M A := λ st,
  match body st with
  | (Ok a, st') => (Ok a, st')
  | (Raise e, st') => handler e st'
  end.

Fixpoint for_each {A : Type} (l : list A) (body : A → M unit) : M unit :=
  match l with
  | [] => mret tt
  | x :: l' => body x ;; for_each l' body
  end.

Definition state_with_self (st : state) (me : DistCPRExtension) : state :=
  {| self := me; fs := fs st; open_fds := open_fds st;
     seen := seen st; env := env st |}.

(** A change of the file system; the state it replaces becomes history. *)
Definition state_with_fs (st : state) (fs' : filesystem) : state :=
  {| self := self st; fs := fs'; open_fds := open_fds st;
     seen := fs st :: seen st; env := env st |}.

Definition state_with_fds (st : state) (fds : gset nat) : state :=
  {| self := self st; fs := fs st; open_fds := fds;
     seen := seen st; env := env st |}.

Definition set_self (f : DistCPRExtension → DistCPRExtension) : M unit :=
  λ st, (Ok tt, state_with_self st (f (self st))).

Definition write_fs (fs' : filesystem) : M unit :=
  λ st, (Ok tt, state_with_fs st fs').

Definition set_fds (fds : gset nat) : M unit :=
  λ st, (Ok tt, state_with_fds st fds).

(** ** Operating-system and library calls *)

(** The operating system of the model is a writable file system whose
    entries are named by single path components.  [makedirs] fails only on
    a path that exists and every path that exists is a directory, so the
    handler of [_maybe_makedirs] never re-raises here; [remove] fails only
    on a missing file; a name is never split at a separator.  The real
    calls fail for other reasons as well (a path that cannot be created, a
    name with a separator in it, a file that cannot be deleted); such
    failures are outside the model, and a property that depends on a call
    returning says so. *)

Definition lookup_file (f : filesystem) (file : string * string) : option string :=
  f !! file.1 ≫= λ d, d !! file.2.

Definition store_file (f : filesystem) (file : string * string) (bytes : string) : filesystem :=
  match f !! file.1 with
  | Some d => <[file.1 := <[file.2 := bytes]> d]> f
  | None => f
  end.

Definition drop_file (f : filesystem) (file : string * string) : filesystem :=
  match f !! file.1 with
  | Some d => <[file.1 := delete file.2 d]> f
  | None => f
  end.

Module Os.

(** [os.path.join(path, f)]; a [None] path raises [TypeError]. *)
Definition join (p : option string) (f : string) : M (string * string) :=
  match p with
  | Some d => mret (d, f)
  | None => raise TypeError
  end.

Definition makedirs (d : string) : M unit :=
  st ← get;
  match fs st !! d with
  | Some _ => raise OSError_EEXIST
  | None => write_fs (<[d := ∅]> (fs st))
  end.

Definition isdir (d : string) : M bool :=
  st ← get; mret (bool_decide (is_Some (fs st !! d))).

Definition listdir (d : string) : M (list string) :=
  st ← get;
  match fs st !! d with
  | Some entries => mret (elements (dom entries))
  | None => raise OSError_ENOENT
  end.

Definition remove (file : string * string) : M unit :=
  st ← get;
  match lookup_file (fs st) file with
  | Some _ => write_fs (drop_file (fs st) file)
  | None => raise OSError_ENOENT
  end.

Definition close (fd : nat) : M unit :=
  st ← get;
  if decide (fd ∈ open_fds st) then set_fds (open_fds st ∖ {[fd]})
  else raise OSError_EBADF.

(** [tempfile.mkstemp(prefix=prefix, dir=dir)]: creates, exclusively, an
    empty file named [prefix] followed by random characters and opens it.
    With [dir=None] the default temporary directory is used. *)
Definition mkstemp (prefix : string) (dir : option string) : M (nat * (string * string)) :=
  st ← get;
  let d := default "/tmp" dir in
  let tmppath := (d, prefix +:+ mkstemp_suffix (env st)) in
  match fs st !! d with
  | None => raise OSError_ENOENT
  | Some entries =>
      match entries !! tmppath.2 with
      | Some _ => raise OSError_EEXIST
      | None =>
          let fd := fresh (open_fds st) in
          write_fs (store_file (fs st) tmppath EmptyString) ;;
          set_fds ({[fd]} ∪ open_fds st) ;;
          mret (fd, tmppath)
      end
  end.

(** [shutil.move(src, dst)] inside one file system is [os.rename]: in one
    step [dst] gets the bytes of [src], and [src] goes. *)
Definition move (src dst : string * string) : M unit :=
  st ← get;
  match lookup_file (fs st) src, fs st !! dst.1 with
  | Some bytes, Some _ => write_fs (store_file (drop_file (fs st) src) dst bytes)
  | _, _ => raise OSError_ENOENT
  end.

(** [chainer.serializers.save_npz(file, target)]: opens [file] for writing
    and writes the serialisation of [target]; when serialisation fails,
    only a prefix has been written and the failure is raised. *)
Definition save_npz (file : string * string) (target : trainer) : M unit :=
  st ← get;
  match fs st !! file.1 with
  | None => raise OSError_ENOENT
  | Some _ =>
      match save_fault (env st) with
      | Some k =>
          write_fs (store_file (fs st) file (String.substring 0 k (snapshot target))) ;;
          raise IOError
      | None => write_fs (store_file (fs st) file (snapshot target))
      end
  end.

(** [chainer.serializers.load_npz(file, target)] fills [target] in place. *)
Definition load_npz (file : string * string) (target : trainer) : M trainer :=
  st ← get;
  match lookup_file (fs st) file with
  | Some bytes => mret {| out := out target; snapshot := bytes |}
  | None => raise OSError_ENOENT
  end.

End Os.

(** ** Module-level helpers *)

Definition _maybe_makedirs (p : option string) : M unit :=
  match p with
  | None => raise TypeError
  | Some d =>
      try_except (Os.makedirs d)
        (λ exc, match exc with
                | OSError_EEXIST =>
                    b ← Os.isdir d; if b : bool then mret tt else raise exc
                | _ => raise exc
                end)
  end.

Definition _load (p : option string) (filename : string) (target : trainer) : M trainer :=
  file ← Os.join p filename;
  Os.load_npz file target.

Definition _save (p : option string) (filename : string) (target : trainer) : M unit :=
  _maybe_makedirs p ;;
  let prefix := "tmp-" +:+ filename in
  '(fd, tmppath) ← Os.mkstemp prefix p;
  try_except (Os.save_npz tmppath target)
    (λ e, Os.close fd ;; Os.remove tmppath ;; raise e) ;;
  Os.close fd ;;
  dst ← Os.join p filename;
  Os.move tmppath dst.

(** ** Collective communication, seen from one rank *)

Module Mpi.

(** [comm.mpi_comm.gather(self.files, root=0)] *)
Definition gather : M (option (list (list string))) :=
  st ← get; mret (gather_out (env st)).

(** [comm.mpi_comm.bcast(value, root=0)]: the root gets its own value
    back, every other rank gets the root's. *)
Definition bcast (value : option (list Z)) : M (option (list Z)) :=
  st ← get;
  if decide (comm_rank (self st) = 0) then mret value
  else mret (Some (bcast_in (env st))).

End Mpi.

(** ** Methods of [_DistCPRExtension] *)

(** How the coordinator's block (lines 168-187) is left: by the early
    [return], or by falling through to the broadcast with [iters0]. *)
Inductive flow : Type :=
  | Returned
  | Falls (iters0 : option (list Z)).

(** The end of a round, once the broadcast has delivered [iters0]
    (lines 190-200). *)
Definition rebuild (remove_remainder : bool) (iters0 : list Z) : M unit :=
  st ← get;
  let fl := _filenames (self st) iters0 in
  (if remove_remainder then
     let files2remove : gset string :=
       list_to_set (files (self st)) ∖ list_to_set fl in
     for_each (elements files2remove)
       (λ file, try_except
                  (f ← Os.join (path (self st)) file; Os.remove f)
                  (λ _, mret tt))
   else mret tt) ;;
  set_self (λ me, with_files me fl).

Definition _sync_file_list (remove_remainder : bool) : M unit :=
  file_lists ← Mpi.gather;
  st ← get;
  r ← (if decide (comm_rank (self st) = 0) then
         match file_lists with
         | Some [] =>
             set_self (λ me, with_files me []) ;; mret Returned
         | Some (first :: rest) =>
             iters0 ← lift (coordinate (self st) first rest);
             mret (Falls (Some iters0))
         | None => raise RuntimeError
         end
       else mret (Falls None));
  match r with
  | Returned => mret tt
  | Falls iters0 =>
      iters0 ← Mpi.bcast iters0;
      match iters0 with
      | None => raise TypeError
      | Some iters0 => rebuild remove_remainder iters0
      end
  end.

Definition checkpoint (target : trainer) (iteration : Z) : M unit :=
  st ← get;
  let filename := _filename (self st) iteration in
  _save (path (self st)) filename target ;;
  set_self (λ me, with_files me (files me ++ [filename])) ;;
  st ← get;
  if decide (Z.of_nat (length (files (self st))) - cp_interval (self st) > 5)
  then _sync_file_list true
  else mret tt.

Definition finalize : M unit :=
  st ← get;
  match path (self st) with
  | None => raise AssertionError
  | Some _ =>
      let files2remove := files (self st) in
      for_each files2remove
        (λ file, filename ← Os.join (path (self st)) file;
                 try_except (Os.remove filename) (λ _, mret tt)) ;;
      set_self (λ me, with_files me [])
  end.

(** [filter(None, parsed)] followed by the comprehension
    [[i for name, rank, i in ... if name == self.name and rank == self.comm.rank]]. *)
Definition local_iterations (self : DistCPRExtension)
    (parsed : list (option (string * Z * Z))) : list Z :=
  omap (λ t, match t with
             | Some (nm, rank, i) =>
                 if String.eqb nm (name self) && (rank =? comm_rank self)
                 then Some i else None
             | None => None
             end) parsed.

(** The scan of a directory listing (lines 243-245). *)
Definition scan_local (self : DistCPRExtension) (local_files : list string)
  : result (list Z) :=
  match _parse_filenames self local_files with
  | Raise e => Raise e
  | Ok parsed => Ok (local_iterations self parsed)
  end.

(** [max(iters)] of a non-empty list. *)
Definition py_max (first : Z) (rest : list Z) : Z := foldl Z.max first rest.

Definition maybe_resume (target : trainer) (opt : option optimizer)
    (p : option string) : M (trainer * option optimizer) :=
  st ← get;
  (match path (self st) with
   | None =>
       match p with
       | Some d => set_self (λ me, with_path me (Some d))
       | None => set_self (λ me, with_path me (Some (out target)))
       end
   | Some _ => mret tt
   end) ;;
  st ← get;
  local_files ← try_except
                  (match path (self st) with
                   | Some d => Os.listdir d
                   | None => raise TypeError
                   end)
                  (λ _, mret []);
  local_iters ← lift (scan_local (self st) local_files);
  set_self (λ me, with_files me (_filenames me local_iters)) ;;
  _sync_file_list false ;;
  st ← get;
  parsed ← lift (_parse_filenames (self st) (files (self st)));
  iters ← lift (unpack_iterations parsed);
  match iters with
  | i0 :: rest =>
      let i := py_max i0 rest in
      target' ← _load (path (self st)) (_filename (self st) i) target;
      match opt with
      | Some _ => mret (target', Some {| needs_broadcast := false |})
      | None => mret (target', None)
      end
  | [] => mret (target, opt)
  end.

(** [__init__(name, comm, cp_interval, gc_interval, path)].  [nm] and
    [comm] are [None] where the caller passes [None]; otherwise [comm] is the
    communicator's rank.  Nobody sees the object under construction before
    the constructor returns, so the assignments of lines 106-119 are stored
    then: when the constructor raises, the state keeps the controller it
    had.  The four assertions raise the same exception, in the order of
    lines 121-124. *)
Definition __init__ (nm : option string) (comm : option Z) (cp gc : Z)
    (p : option string) : M unit :=
  (match p with
   | Some _ => _maybe_makedirs p
   | None => mret tt
   end) ;;
  match nm with
  | None => raise AssertionError
  | Some nm' =>
      if decide (0 < cp) then
        if decide (0 < gc) then
          match comm with
          | None => raise AssertionError
          | Some rank =>
              set_self (λ _, {| name := nm'; cp_interval := cp; gc_interval := gc;
                                comm_rank := rank; files := []; path := p |})
          end
        else raise AssertionError
      else raise AssertionError
  end.

(** [__call__(trainer)]; [iteration] stands for [trainer.updater.iteration],
    which the record [trainer] does not carry. *)
Definition __call__ (target : trainer) (iteration : Z) : M unit :=
  st ← get;
  (match path (self st) with
   | None => set_self (λ me, with_path me (Some (out target)))
   | Some _ => mret tt
   end) ;;
  checkpoint target iteration.

(** ** Timing statistics *)

(** [_CPRStats].  Clock readings are values of [time] and [minus] is their
    subtraction; a method that calls [time.time()] takes the reading as its
    argument [now].  [render] stands for the formatting of the average,
    minimum and maximum of the durations. *)
Section stats.

Context {time : Type}.
Variable minus : time → time → time.
Variable render : list time → string.

(** An entry [{'b': ..., 'd': ...}] of [timings]. *)
Record timing : Type := { timing_b : time; timing_d : time }.

Record _CPRStats : Type := { timings : list timing; begin : option time }.

Definition stats_new : _CPRStats := {| timings := []; begin := None |}.

Definition start (now : time) (s : _CPRStats) : _CPRStats :=
  {| timings := timings s; begin := Some now |}.

Definition end_ (now : time) (s : _CPRStats) : _CPRStats :=
  match begin s with
  | None => s
  | Some b0 =>
      {| timings := timings s ++ [{| timing_b := b0; timing_d := minus now b0 |}];
         begin := None |}
  end.

Definition report (s : _CPRStats) : string :=
  if decide (length (timings s) = 0%nat) then "No stats available"
  else render (timing_d <$> timings s).

(** A sequence of calls on one object. *)
Inductive stats_call : Type :=
  | Start (now : time)
  | End (now : time).

Definition stats_step (s : _CPRStats) (c : stats_call) : _CPRStats :=
  match c with
  | Start now => start now s
  | End now => end_ now s
  end.

Definition stats_run (calls : list stats_call) (s : _CPRStats) : _CPRStats :=
  foldl stats_step s calls.

Definition is_start (c : stats_call) : bool :=
  match c with Start _ => true | End _ => false end.

Definition is_end (c : stats_call) : bool :=
  match c with Start _ => false | End _ => true end.

Fixpoint count_calls (p : stats_call → bool) (calls : list stats_call) : nat :=
  match calls with
  | [] => 0%nat
  | c :: calls' => ((if p c then 1 else 0) + count_calls p calls')%nat
  end.

Definition pending (s : _CPRStats) : nat :=
  match begin s with Some _ => 1%nat | None => 0%nat end.

End stats.

(** ** A whole job *)

Definition state_with_env (st : state) (e : environment) : state :=
  {| self := self st; fs := fs st; open_fds := open_fds st;
     seen := seen st; env := e |}.

(** What the collectives deliver to rank [st] in a round over [job], the
    states of all ranks in rank order: [gather] returns every rank's value
    on the root and [None] elsewhere, [bcast] the root's value [iters0]. *)
Definition job_env (job : list state) (iters0 : list Z) (st : state) : environment :=
  {| mkstemp_suffix := mkstemp_suffix (env st);
     save_fault := save_fault (env st);
     gather_out := if decide (comm_rank (self st) = 0)
                   then Some ((λ st', files (self st')) <$> job) else None;
     bcast_in := iters0 |}.

(** One round of [_sync_file_list], called by every rank of the job.  When
    the root raises before its broadcast the other ranks wait for ever, and
    the round has no outcome. *)
Definition job_round (remove_remainder : bool) (job : list state)
  : option (list (result unit * state)) :=
  match job with
  | [] => None
  | root :: others =>
      match coordinate (self root) (files (self root))
              ((λ st, files (self st)) <$> others) with
      | Ok iters0 =>
          Some ((λ st, _sync_file_list remove_remainder
                         (state_with_env st (job_env job iters0 st))) <$> job)
      | Raise _ => None
      end
  end.

(** ** Vocabulary of the specifications *)

(** The computation [m] leaves the component [proj] of the state as it
    found it, whether it returns or raises. *)
Definition preserves {A B : Type} (proj : state → B) (m : M A) : Prop :=
  ∀ st, proj (m st).2 = proj st.

(** The list of iterations a round adopts on this rank: on the root what
    the coordinator computes from a non-empty gathered sequence, elsewhere
    what the root broadcast.  [None] when the round ends without a
    broadcast. *)
Definition agreed (st : state) : option (list Z) :=
  if decide (comm_rank (self st) = 0) then
    match gather_out (env st) with
    | Some (first :: rest) =>
        match coordinate (self st) first rest with
        | Ok iters0 => Some iters0
        | Raise _ => None
        end
    | _ => None
    end
  else Some (bcast_in (env st)).

(** ** Sample runs *)

(** The controller of rank 0 of run ["run"], keeping five generations in
    directory ["result"]. *)
Definition run0 : DistCPRExtension :=
  {| name := "run"; cp_interval := 5; gc_interval := 5; comm_rank := 0;
     files := []; path := Some "result" |}.

Definition run1 : DistCPRExtension :=
  {| name := "run"; cp_interval := 5; gc_interval := 5; comm_rank := 1;
     files := []; path := Some "result" |}.

Definition quiet : environment :=
  {| mkstemp_suffix := "k3x9"; save_fault := None;
     gather_out := Some [[]]; bcast_in := [] |}.

(** The iterations 5, 10, ..., 100. *)
Definition twenty : list Z := (λ n, 5 * n) <$> seqZ 1 20.

(** Rank 0 starts in a directory that holds one generation and a file whose
    name has the run's prefix but no iteration number. *)
Definition stray_state : state :=
  {| self := run0;
     fs := {[ "result" := {[ "run.0.5" := "five"; "run.0.best" := "copy" ]} ]};
     open_fds := ∅; seen := []; env := quiet |}.

(** Rank 0 tracks two generations and its gather delivers an empty
    sequence. *)
Definition empty_gather_state : state :=
  {| self := with_files run0 ["run.0.5"; "run.0.10"];
     fs := {[ "result" := {[ "run.0.5" := "five"; "run.0.10" := "ten" ]} ]};
     open_fds := ∅; seen := [];
     env := {| mkstemp_suffix := "k3x9"; save_fault := None;
               gather_out := Some []; bcast_in := [] |} |}.

(** Rank 0 tracks iterations 1, 3, 5 and 7, the file of iteration 1 is
    already gone, and rank 1 reports 5 and 7 only. *)
Definition gc_state : state :=
  {| self := with_files run0 ["run.0.1"; "run.0.3"; "run.0.5"; "run.0.7"];
     fs := {[ "result" := {[ "run.0.3" := "three"; "run.0.5" := "five";
                              "run.0.7" := "seven"; "notes.txt" := "x" ]} ]};
     open_fds := ∅; seen := [];
     env := {| mkstemp_suffix := "k3x9"; save_fault := None;
               gather_out := Some [["run.0.1"; "run.0.3"; "run.0.5"; "run.0.7"];
                                   ["run.1.5"; "run.1.7"]];
               bcast_in := [] |} |}.

Definition fresh_weights : trainer := {| out := "result"; snapshot := "weights" |}.

(** Ranks 0 and 1 have written iterations 1 to 10; rank 0 is about to write
    iteration 11, and by the time of the gather rank 1 has written it too. *)
Definition full_state : state :=
  {| self := with_files run0 (_filenames run0 (seqZ 1 10));
     fs := {[ "result" :=
                list_to_map ((λ i, (_filename run0 i, "old")) <$> seqZ 1 10) ]};
     open_fds := ∅; seen := [];
     env := {| mkstemp_suffix := "k3x9"; save_fault := None;
               gather_out := Some [_filenames run0 (seqZ 1 11);
                                   _filenames run1 (seqZ 1 11)];
               bcast_in := [] |} |}.

(** Rank 1 of the same job at the same moment: the broadcast delivers what
    the root computes from the two lists, the iterations 7 to 11. *)
Definition full_state1 : state :=
  {| self := with_files run1 (_filenames run1 (seqZ 1 10));
     fs := {[ "result" :=
                list_to_map ((λ i, (_filename run1 i, "old")) <$> seqZ 1 10) ]};
     open_fds := ∅; seen := [];
     env := {| mkstemp_suffix := "k3x9"; save_fault := None;
               gather_out := None; bcast_in := [7; 8; 9; 10; 11] |} |}.

(** The two ranks as the gather of that round sees them, each with its
    eleventh name appended. *)
Definition full_job : list state :=
  [state_with_self full_state (with_files run0 (_filenames run0 (seqZ 1 11)));
   state_with_self full_state1 (with_files run1 (_filenames run1 (seqZ 1 11)))].

(** Rank 0 holds one generation; the next serialisation fails after three
    bytes. *)
Definition faulty_state : state :=
  {| self := with_files run0 ["run.0.5"];
     fs := {[ "result" := {[ "run.0.5" := "five" ]} ]};
     open_fds := ∅; seen := [];
     env := {| mkstemp_suffix := "k3x9"; save_fault := Some 3%nat;
               gather_out := Some [["run.0.5"]]; bcast_in := [] |} |}.

(** Three ranks restart.  Ranks 0 and 1 had written iterations 3 and 5,
    rank 2 only iteration 3. *)
Definition fallback_state : state :=
  {| self := run0;
     fs := {[ "result" := {[ "run.0.3" := "three"; "run.0.5" := "five" ]} ]};
     open_fds := ∅; seen := [];
     env := {| mkstemp_suffix := "k3x9"; save_fault := None;
               gather_out := Some [["run.0.3"; "run.0.5"];
                                   ["run.1.3"; "run.1.5"];
                                   ["run.2.3"]];
               bcast_in := [] |} |}.

(** A controller whose run name contains the separator. *)
Definition dotted_run : DistCPRExtension :=
  {| name := "exp.1"; cp_interval := 5; gc_interval := 5; comm_rank := 0;
     files := []; path := Some "result" |}.

(** The gather on rank 0 delivers, from rank 1, a name that is no
    checkpoint. *)
Definition foreign_gather_state : state :=
  {| self := with_files run0 ["run.0.5"];
     fs := {[ "result" := {[ "run.0.5" := "five" ]} ]};
     open_fds := ∅; seen := [];
     env := {| mkstemp_suffix := "k3x9"; save_fault := None;
               gather_out := Some [["run.0.5"]; ["run.1.5"; "notes.txt"]];
               bcast_in := [] |} |}.

Definition run2 : DistCPRExtension :=
  {| name := "run"; cp_interval := 5; gc_interval := 5; comm_rank := 2;
     files := []; path := Some "result" |}.

Definition rank_state (me : DistCPRExtension) (its : list Z) : state :=
  {| self := with_files me (_filenames me its);
     fs := {[ "result" := list_to_map ((λ i, (_filename me i, "bytes")) <$> its) ]};
     open_fds := ∅; seen := []; env := quiet |}.

(** Three ranks, each with its own directory; ranks 0 and 1 hold
    iterations 3 and 5, rank 2 only iteration 3. *)
Definition sample_job : list state :=
  [rank_state run0 [3; 5]; rank_state run1 [3; 5]; rank_state run2 [3]].

(** A controller built without a path, before its first checkpoint. *)
Definition pathless_state : state :=
  {| self := with_path run0 None;
     fs := {[ "result" := ∅ ]};
     open_fds := ∅; seen := []; env := quiet |}.

(** Both ranks report iterations 3 and 5, but on rank 0 the file of
    iteration 5 is gone. *)
Definition lost_newest_state : state :=
  {| self := run0;
     fs := {[ "result" := {[ "run.0.3" := "three" ]} ]};
     open_fds := ∅; seen := [];
     env := {| mkstemp_suffix := "k3x9"; save_fault := None;
               gather_out := Some [["run.0.3"; "run.0.5"]; ["run.1.3"; "run.1.5"]];
               bcast_in := [] |} |}.

(** * Properties *)

#[local] Set Warnings "-clear-no-such-hyp".

(** ** Sanity checks of the string primitives and of the codec *)

Example split_three : Py.split "." "run.0.25" = ["run"; "0"; "25"].
Proof. reflexivity. Qed.
Example split_empty : Py.split "." EmptyString = [EmptyString].
Proof. reflexivity. Qed.
Example split_trailing : Py.split "." "a..b." = ["a"; EmptyString; "b"; EmptyString].
Proof. reflexivity. Qed.
Example int_plain : Py.int "25" = Some 25.
Proof. reflexivity. Qed.
Example int_spaces : Py.int "  -7 " = Some (-7).
Proof. reflexivity. Qed.
Example int_underscore : Py.int "1_000" = Some 1000.
Proof. reflexivity. Qed.
Example int_bad_underscore : Py.int "1__0" = None /\ Py.int "_1" = None /\ Py.int "1_" = None.
Proof. repeat split. Qed.
Example int_white_space :
  Py.int (String (ascii_of_nat 9) "5 ") = Some 5
  ∧ Py.int (String (ascii_of_nat 160) "5") = Some 5
  ∧ Py.int (String (ascii_of_nat 28) "5") = None.
Proof. repeat split; by vm_compute. Qed.
Example int_letters : Py.int "a" = None /\ Py.int EmptyString = None /\ Py.int "+ 5" = None.
Proof. repeat split. Qed.
Example format_d_ex : Py.format_d 105 = "105" /\ Py.format_d 0 = "0" /\ Py.format_d (-3) = "-3".
Proof. repeat split. Qed.
Example filename_ex : _filename run0 25 = "run.0.25".
Proof. reflexivity. Qed.
Example parse_ex : _parse_filename run0 "run.3.25" = Ok (Some ("run", 3, 25)).
Proof. reflexivity. Qed.
Example parse_other_run : _parse_filename run0 "tmp-run.0.25x9a" = Ok None.
Proof. reflexivity. Qed.
Example parse_two_fields : _parse_filename run0 "run.log" = Ok None.
Proof. reflexivity. Qed.

(** ** The string primitives *)

Section strings.

Implicit Types (s : string) (c : ascii) (p : ascii → bool).

Lemma all_chars_impl p q s :
  (∀ c, p c = true → q c = true) →
  Py.all_chars p s = true → Py.all_chars q s = true.
Proof.
  intros Hpq. induction s as [|c s IH]; simpl; [done|].
  rewrite !andb_true_iff. intros [Hc Hs]. auto.
Qed.

Lemma all_chars_app p s1 s2 :
  Py.all_chars p (s1 +:+ s2) = Py.all_chars p s1 && Py.all_chars p s2.
Proof.
  induction s1 as [|c s1 IH]; simpl; [done|]. by rewrite IH, andb_assoc.
Qed.

Lemma contains_all_chars c s :
  Py.contains c s = false ↔ Py.all_chars (λ c', negb (Ascii.eqb c' c)) s = true.
Proof.
  induction s as [|c' s IH]; simpl; [done|].
  rewrite orb_false_iff, andb_true_iff, negb_true_iff. by rewrite IH.
Qed.

Lemma split_nonempty sep s : Py.split sep s ≠ [].
Proof.
  destruct s as [|c s]; simpl; [done|].
  destruct (Ascii.eqb c sep); [done|]. by destruct (Py.split sep s).
Qed.

Lemma split_no_sep sep s : Py.contains sep s = false → Py.split sep s = [s].
Proof.
  induction s as [|c s IH]; simpl; [done|].
  rewrite orb_false_iff. intros [-> Hs]. by rewrite IH.
Qed.

Lemma split_app sep s1 s2 :
  Py.contains sep s1 = false →
  Py.split sep (s1 +:+ String sep s2) = s1 :: Py.split sep s2.
Proof.
  induction s1 as [|c s1 IH]; simpl.
  - intros _. by rewrite Ascii.eqb_refl.
  - rewrite orb_false_iff. intros [-> Hs]. by rewrite IH.
Qed.

(** The number of fields is one more than the number of separators. *)
Lemma split_length sep s :
  length (Py.split sep s)
  = S (length (filter (λ c, c = sep) (String.list_ascii_of_string s))).
Proof.
  induction s as [|c s IH]; simpl; [done|].
  destruct (Ascii.eqb_spec c sep) as [->|Hne].
  - rewrite filter_cons_True by done. simpl. by rewrite IH.
  - rewrite filter_cons_False by done. rewrite <-IH.
    destruct (Py.split sep s) eqn:E; [by destruct (split_nonempty sep s)|done].
Qed.

Lemma lstrip_id c s : Py.is_space c = false → Py.lstrip (String c s) = String c s.
Proof. intros H. simpl. by rewrite H. Qed.

Lemma rstrip_aux_id s :
  Py.all_chars (λ c, negb (Py.is_space c)) s = true →
  Py.rstrip_aux s = match s with EmptyString => None | _ => Some s end.
Proof.
  induction s as [|c s IH]; simpl; [done|].
  rewrite andb_true_iff, negb_true_iff. intros [Hc Hs].
  rewrite IH by done. destruct s; [by rewrite Hc|done].
Qed.

Lemma strip_id s :
  Py.all_chars (λ c, negb (Py.is_space c)) s = true → Py.strip s = s.
Proof.
  intros Hs. unfold Py.strip, Py.rstrip. destruct s as [|c s]; [done|].
  pose proof Hs as Hs'. simpl in Hs'.
  rewrite andb_true_iff, negb_true_iff in Hs'. destruct Hs' as [Hc _].
  rewrite lstrip_id by done. by rewrite rstrip_aux_id.
Qed.

Lemma pretty_N_char_digit (d : N) :
  (d < 10)%N →
  Py.is_digit (pretty_N_char d) = true ∧ Py.digit_value (pretty_N_char d) = d.
Proof.
  intros Hd.
  assert (d = 0 ∨ d = 1 ∨ d = 2 ∨ d = 3 ∨ d = 4 ∨ d = 5 ∨ d = 6
          ∨ d = 7 ∨ d = 8 ∨ d = 9)%N as Hcases by lia.
  repeat (destruct Hcases as [->|Hcases]; [by split|]). by subst.
Qed.

(** Reading back the digits that [pretty] prints in front of [s]. *)
Lemma digits_pretty_N_go (x : N) s (b : bool) :
  (0 < x)%N → Py.digits 0 b (pretty_N_go x s) = Py.digits x true s.
Proof.
  revert s b. induction (N.lt_wf_0 x) as [x _ IH]; intros s b Hx.
  rewrite pretty_N_go_step by done.
  destruct (pretty_N_char_digit (x `mod` 10)%N) as [Hd Hv].
  { apply N.mod_lt. lia. }
  destruct (N.eq_0_gt_0_cases (x `div` 10)) as [Hq|Hq].
  - rewrite Hq, pretty_N_go_0. simpl. rewrite Hd, Hv. f_equal.
    pose proof (N.div_mod x 10 ltac:(lia)). lia.
  - rewrite IH; [|by apply N.div_lt|done]. simpl. rewrite Hd, Hv. f_equal.
    pose proof (N.div_mod x 10 ltac:(lia)). lia.
Qed.

Lemma all_chars_pretty_N_go p (x : N) s :
  (∀ d, (d < 10)%N → p (pretty_N_char d) = true) →
  Py.all_chars p s = true → Py.all_chars p (pretty_N_go x s) = true.
Proof.
  intros Hp. revert s. induction (N.lt_wf_0 x) as [x _ IH]; intros s Hs.
  assert (x = 0 ∨ 0 < x)%N as [->|Hx] by lia; [by rewrite pretty_N_go_0|].
  rewrite pretty_N_go_step by done. apply IH; [by apply N.div_lt|].
  simpl. rewrite Hs, Hp; [done|]. apply N.mod_lt. lia.
Qed.

Lemma pretty_N_numeric (n : N) : Py.all_chars Py.numeric_char (pretty n) = true.
Proof.
  unfold pretty, pretty_N. case_decide; [done|].
  apply all_chars_pretty_N_go; [|done].
  intros d Hd. unfold Py.numeric_char.
  by destruct (pretty_N_char_digit d Hd) as [-> _].
Qed.

Lemma format_d_numeric (z : Z) : Py.all_chars Py.numeric_char (Py.format_d z) = true.
Proof.
  unfold Py.format_d. destruct z as [|q|q]; [done|apply (pretty_N_numeric (N.pos q))|].
  change (pretty (Z.neg q)) with ("-" +:+ pretty (N.pos q)).
  rewrite all_chars_app. by rewrite pretty_N_numeric.
Qed.

Lemma numeric_char_not_space c : Py.numeric_char c = true → negb (Py.is_space c) = true.
Proof. by destruct c as [[] [] [] [] [] [] [] []]. Qed.

Lemma numeric_char_not_dot c : Py.numeric_char c = true → negb (Ascii.eqb c ".") = true.
Proof. by destruct c as [[] [] [] [] [] [] [] []]. Qed.

Lemma is_digit_not_sign c :
  Py.is_digit c = true → Ascii.eqb c "-" = false ∧ Ascii.eqb c "+" = false.
Proof. by destruct c as [[] [] [] [] [] [] [] []]. Qed.

Lemma format_d_no_dot (z : Z) : Py.contains "." (Py.format_d z) = false.
Proof.
  apply contains_all_chars.
  eapply all_chars_impl, format_d_numeric. apply numeric_char_not_dot.
Qed.

Lemma digits_pretty_N (n : N) : Py.digits 0 false (pretty n) = Some n.
Proof.
  unfold pretty, pretty_N. case_decide as Hn; [by subst|].
  rewrite digits_pretty_N_go by lia. done.
Qed.

Lemma digits_first_digit (acc : N) c s (n : N) :
  Py.digits acc false (String c s) = Some n → Py.is_digit c = true.
Proof.
  simpl. destruct (Py.is_digit c); [done|]. by rewrite andb_false_r.
Qed.

Lemma int_pretty_N (n : N) : Py.int (pretty n) = Some (Z.of_N n).
Proof.
  unfold Py.int. rewrite strip_id.
  2:{ eapply all_chars_impl, pretty_N_numeric. apply numeric_char_not_space. }
  pose proof (digits_pretty_N n) as Hd.
  destruct (pretty n) as [|c s]; [done|].
  destruct (is_digit_not_sign c (digits_first_digit _ _ _ _ Hd)) as [-> ->].
  by rewrite Hd.
Qed.

(** [int] reads back what ['{:d}'.format] prints. *)
Lemma int_format_d (z : Z) : Py.int (Py.format_d z) = Some z.
Proof.
  unfold Py.format_d. destruct z as [|q|q]; [done|apply (int_pretty_N (N.pos q))|].
  unfold Py.int. rewrite strip_id.
  2:{ eapply all_chars_impl, (format_d_numeric (Z.neg q)).
      apply numeric_char_not_space. }
  change (pretty (Z.neg q)) with (String "-" (pretty (N.pos q))).
  cbv beta iota. rewrite Ascii.eqb_refl, digits_pretty_N. done.
Qed.

End strings.

(** ** The filename codec *)

Section codec.

Implicit Types (self : DistCPRExtension) (filename : string).

Lemma split_filename self (iteration : Z) :
  Py.contains "." (name self) = false →
  Py.split "." (_filename self iteration)
  = [name self; Py.format_d (comm_rank self); Py.format_d iteration].
Proof.
  intros Hname. unfold _filename.
  change (name self +:+ "." +:+ ?r) with (name self +:+ String "." r).
  rewrite split_app by done. f_equal.
  change (?a +:+ "." +:+ ?r) with (a +:+ String "." r).
  rewrite split_app by apply format_d_no_dot. f_equal.
  apply split_no_sep, format_d_no_dot.
Qed.

(** C4.  Round trip of the codec: for a run name without the separator and
    a non-negative rank and iteration, decoding the encoded filename gives
    back the run name, the rank and the iteration. *)
Theorem parse_filename_roundtrip self (iteration : Z) :
  Py.contains "." (name self) = false →
  0 ≤ comm_rank self →
  0 ≤ iteration →
  _parse_filename self (_filename self iteration)
  = Ok (Some (name self, comm_rank self, iteration)).
Proof.
  intros Hname _ _. unfold _parse_filename.
  rewrite split_filename by done.
  rewrite String.eqb_refl. simpl. by rewrite !int_format_d.
Qed.

Lemma parse_filename_roundtrip_witness :
  _parse_filename run0 (_filename run0 25) = Ok (Some ("run", 0, 25)).
Proof. apply (parse_filename_roundtrip run0 25); [reflexivity|simpl; lia|lia]. Defined.

Lemma _parse_filenames_app self (l1 l2 : list string) :
  _parse_filenames self (l1 ++ l2)
  = match _parse_filenames self l1 with
    | Raise e => Raise e
    | Ok p1 =>
        match _parse_filenames self l2 with
        | Raise e => Raise e
        | Ok p2 => Ok (p1 ++ p2)
        end
    end.
Proof.
  induction l1 as [|f l1 IH]; simpl.
  - by destruct (_parse_filenames self l2).
  - destruct (_parse_filename self f); [|done]. rewrite IH.
    destruct (_parse_filenames self l1); [|done].
    by destruct (_parse_filenames self l2).
Qed.

Lemma parse_filename_foreign self filename :
  (∀ rank iter, Py.split "." filename ≠ [name self; rank; iter]) →
  _parse_filename self filename = Ok None.
Proof.
  intros Hforeign. unfold _parse_filename.
  destruct (Py.split "." filename) as [|nm [|rank [|iter [|? ?]]]]; try done.
  destruct (String.eqb_spec nm (name self)) as [->|Hne]; [|done].
  by destruct (Hforeign rank iter).
Qed.

(** C3, as the code has it.  A name that does not consist of exactly three
    fields of which the first is the run name decodes to [None], and the
    scan of a directory listing skips it; a three-field name of this run
    whose rank or iteration field [int] rejects makes the decoder raise
    [ValueError]. *)
Theorem parse_filename_unrelated self filename :
  ((∀ rank iter, Py.split "." filename ≠ [name self; rank; iter]) →
   _parse_filename self filename = Ok None
   ∧ ∀ l1 l2, scan_local self (l1 ++ filename :: l2) = scan_local self (l1 ++ l2))
  ∧ (∀ rank iter,
       Py.split "." filename = [name self; rank; iter] →
       Py.int rank = None ∨ Py.int iter = None →
       _parse_filename self filename = Raise ValueError).
Proof.
  split.
  - intros Hforeign. pose proof (parse_filename_foreign _ _ Hforeign) as Hnone.
    split; [done|]. intros l1 l2. unfold scan_local.
    rewrite !_parse_filenames_app. simpl. rewrite Hnone.
    destruct (_parse_filenames self l1) as [p1|]; [|done].
    destruct (_parse_filenames self l2) as [p2|]; [|done].
    unfold local_iterations. by rewrite !omap_app.
  - intros rank iter Hsplit Hbad. unfold _parse_filename.
    rewrite Hsplit, String.eqb_refl. simpl.
    destruct Hbad as [->| ->]; [done|]. by destruct (Py.int rank).
Qed.

Lemma parse_filename_unrelated_witness :
  (_parse_filename run0 "notes.txt" = Ok None
   ∧ ∀ l1 l2, scan_local run0 (l1 ++ "notes.txt" :: l2) = scan_local run0 (l1 ++ l2))
  ∧ _parse_filename run0 "run.0.best" = Raise ValueError.
Proof.
  destruct (parse_filename_unrelated run0 "notes.txt") as [Hforeign _].
  destruct (parse_filename_unrelated run0 "run.0.best") as [_ Hbad].
  split.
  - apply Hforeign. intros rank iter. vm_compute. discriminate.
  - apply (Hbad "0" "best"); [reflexivity|right; reflexivity].
Defined.

(** C3, as the claim has it, fails: a three-field name of this run with a
    field that is not a number is not decoded to [None]; the decoder
    raises, and so does the start-up scan of a directory that holds such a
    file. *)
Lemma parse_filename_bad_number_raises :
  Py.split "." "run.0.best" = ["run"; "0"; "best"]
  ∧ Py.int "best" = None
  ∧ _parse_filename run0 "run.0.best" ≠ Ok None
  ∧ _parse_filename run0 "run.0.best" = Raise ValueError
  ∧ (maybe_resume {| out := "result"; snapshot := "init" |} None None
       stray_state).1 = Raise ValueError.
Proof. repeat split; try discriminate; by vm_compute. Qed.

End codec.

(** ** The coordinator's part of the quorum round *)

Section coordinator.

Implicit Types (self : DistCPRExtension) (fl : list string) (i : Z).

(** Every name of [fl] decodes to a generation. *)
Lemma iteration_set_spec self fl :
  (∀ f, f ∈ fl → ∃ t, _parse_filename self f = Ok (Some t)) →
  ∃ s, iteration_set self fl = Ok s
       ∧ ∀ i, i ∈ s ↔ ∃ f nm r, f ∈ fl ∧ _parse_filename self f = Ok (Some (nm, r, i)).
Proof.
  unfold iteration_set. induction fl as [|f fl IH]; intros Hwf.
  - exists ∅. split; [done|]. intros i. split; [set_solver|].
    intros (f & ? & ? & Hf & _). by apply elem_of_nil in Hf.
  - destruct IH as (s & Hs & Hmem); [intros; apply Hwf; by right|].
    destruct (Hwf f) as ([[nm r] i0] & Hf); [by left|].
    simpl. rewrite Hf.
    destruct (_parse_filenames self fl) as [parsed|]; [|done]. simpl.
    destruct (unpack_iterations parsed) as [l|]; [|done].
    injection Hs as <-. eexists. split; [done|]. intros i.
    rewrite list_to_set_cons, elem_of_union, elem_of_singleton, Hmem.
    split.
    + intros [->|(f' & nm' & r' & Hin & Hf')].
      * exists f, nm, r. split; [by left|done].
      * exists f', nm', r'. split; [by right|done].
    + intros (f' & nm' & r' & Hin & Hf').
      apply elem_of_cons in Hin as [->|Hin].
      * left. congruence.
      * right. by exists f', nm', r'.
Qed.

Lemma intersect_rest_spec self (iters0 : gset Z) (rest : list (list string)) :
  (∀ fl, fl ∈ rest → ∀ f, f ∈ fl → ∃ t, _parse_filename self f = Ok (Some t)) →
  ∃ s, intersect_rest self iters0 rest = Ok s
       ∧ ∀ i, i ∈ s ↔
              i ∈ iters0
              ∧ ∀ fl, fl ∈ rest →
                  ∃ f nm r, f ∈ fl ∧ _parse_filename self f = Ok (Some (nm, r, i)).
Proof.
  revert iters0. induction rest as [|fl rest IH]; intros iters0 Hwf; simpl.
  - exists iters0. split; [done|]. intros i. split; [|tauto].
    intros Hi. split; [done|]. intros fl Hfl. by apply elem_of_nil in Hfl.
  - destruct (iteration_set_spec self fl) as (iters & -> & Hiters).
    { apply Hwf. by left. }
    destruct (IH (iters0 ∩ iters)) as (s & -> & Hs).
    { intros fl' Hfl'. apply Hwf. by right. }
    exists s. split; [done|]. intros i. rewrite Hs, elem_of_intersection, Hiters.
    split.
    + intros [[Hi0 Hfl] Hrest]. split; [done|]. intros fl' Hfl'.
      apply elem_of_cons in Hfl' as [->|Hfl']; auto.
    + intros [Hi0 Hall]. repeat split; [done|apply Hall; by left|].
      intros fl' Hfl'. apply Hall. by right.
Qed.

(** C5.  For a non-empty gathered sequence of lists of decodable names the
    set the coordinator holds before windowing is the intersection of the
    ranks' iteration sets: an iteration is in it exactly when every rank's
    list has a file of that iteration. *)
Theorem surviving_is_intersection self (first : list string) (rest : list (list string)) :
  (∀ fl, fl ∈ first :: rest → ∀ f, f ∈ fl → ∃ t, _parse_filename self f = Ok (Some t)) →
  ∃ s, surviving self first rest = Ok s
       ∧ ∀ i, i ∈ s ↔
              ∀ fl, fl ∈ first :: rest →
                ∃ f nm r, f ∈ fl ∧ _parse_filename self f = Ok (Some (nm, r, i)).
Proof.
  intros Hwf. unfold surviving.
  destruct (iteration_set_spec self first) as (iters0 & -> & Hfirst).
  { apply Hwf. by left. }
  destruct (intersect_rest_spec self iters0 rest) as (s & -> & Hs).
  { intros fl Hfl. apply Hwf. by right. }
  exists s. split; [done|]. intros i. rewrite Hs, Hfirst. split.
  - intros [Hi Hrest] fl Hfl. apply elem_of_cons in Hfl as [->|Hfl]; auto.
  - intros Hall. split; [apply Hall; by left|].
    intros fl Hfl. apply Hall. by right.
Qed.

(** The example of the specification: ranks holding {10,20,30},
    {20,30,40} and {20,30} agree on {20,30}. *)
Example surviving_three_ranks :
  surviving run0 ["run.0.10"; "run.0.20"; "run.0.30"]
    [["run.1.20"; "run.1.30"; "run.1.40"]; ["run.2.20"; "run.2.30"]]
  = Ok {[20; 30]}.
Proof. by vm_compute. Qed.

Lemma surviving_is_intersection_witness :
  ∃ s, surviving run0 ["run.0.10"; "run.0.20"] [["run.1.20"]] = Ok s
       ∧ ∀ i, i ∈ s ↔
              ∀ fl, fl ∈ [["run.0.10"; "run.0.20"]; ["run.1.20"]] →
                ∃ f nm r, f ∈ fl ∧ _parse_filename run0 f = Ok (Some (nm, r, i)).
Proof.
  apply (surviving_is_intersection run0 ["run.0.10"; "run.0.20"] [["run.1.20"]]).
  intros fl Hfl f Hf.
  repeat (apply elem_of_cons in Hfl as [->|Hfl]);
    [..|by apply elem_of_nil in Hfl];
    repeat (apply elem_of_cons in Hf as [->|Hf]);
    try (by apply elem_of_nil in Hf); eexists; by vm_compute.
Defined.

Lemma slice_from_newest {A : Type} (k : Z) (l : list A) :
  0 < k → slice_from (- k) l = drop (length l - Z.to_nat k) l.
Proof.
  intros Hk. unfold slice_from. rewrite decide_True by lia. f_equal. lia.
Qed.

Lemma StronglySorted_le_lt (l : list Z) :
  StronglySorted Z.le l → NoDup l → StronglySorted Z.lt l.
Proof.
  induction 1 as [|x l Hl IH Hx]; intros Hnd; [constructor|].
  apply NoDup_cons in Hnd as [Hx' Hnd]. constructor; [by apply IH|].
  rewrite Forall_forall in Hx |- *. intros y Hy.
  assert (x ≠ y) by (intros ->; by apply Hx', list_elem_of_In).
  specialize (Hx y Hy). lia.
Qed.

Lemma sorted_elements (s : gset Z) :
  let l := merge_sort Z.le (elements s) in
  StronglySorted Z.lt l ∧ length l = size s ∧ ∀ x, x ∈ l ↔ x ∈ s.
Proof.
  pose proof (merge_sort_Permutation Z.le (elements s)) as Hperm. simpl.
  split; [|split].
  - apply StronglySorted_le_lt.
    + apply StronglySorted_merge_sort; apply _.
    + rewrite Hperm. apply NoDup_elements.
  - by rewrite Hperm.
  - intros x. by rewrite Hperm, elem_of_elements.
Qed.

(** C6.  The coordinator's list is the surviving set in ascending order,
    cut down to its [cp_interval] largest members (all of them when there
    are fewer): it is strictly ascending, has [min cp_interval (size s)]
    members, all of them survivors, and every survivor left out is smaller
    than every member kept. *)
Theorem window_keeps_newest self (first : list string) (rest : list (list string))
    (s : gset Z) :
  0 < cp_interval self →
  surviving self first rest = Ok s →
  ∃ w, coordinate self first rest = Ok w
       ∧ StronglySorted Z.lt w
       ∧ length w = (Z.to_nat (cp_interval self) `min` size s)%nat
       ∧ (∀ x, x ∈ w → x ∈ s)
       ∧ (∀ x y, x ∈ s → x ∉ w → y ∈ w → x < y).
Proof.
  intros Hcp Hs. unfold coordinate. rewrite Hs. eexists. split; [done|].
  unfold window. rewrite slice_from_newest by done.
  destruct (sorted_elements s) as (Hsorted & Hlen & Hmem).
  set (l := merge_sort Z.le (elements s)) in *.
  set (k := (length l - Z.to_nat (cp_interval self))%nat).
  rewrite <-(take_drop k l) in Hsorted.
  repeat split.
  - by apply StronglySorted_app_1_r in Hsorted.
  - rewrite length_drop. lia.
  - intros x Hx. apply Hmem. rewrite <-(take_drop k l). apply elem_of_app. by right.
  - intros x y Hx Hnot Hy. apply Hmem in Hx.
    rewrite <-(take_drop k l), elem_of_app in Hx.
    destruct Hx as [Hx|Hx]; [|done].
    by apply (StronglySorted_app_1_elem_of _ _ _ _ _ Hsorted).
Qed.

Lemma window_keeps_newest_witness :
  let s : gset Z := list_to_set twenty in
  coordinate run0 (_filenames run0 (reverse twenty))
    [_filenames run1 (twenty ++ [105])]
  = Ok [80; 85; 90; 95; 100]
  ∧ ∃ w, coordinate run0 (_filenames run0 (reverse twenty))
           [_filenames run1 (twenty ++ [105])] = Ok w
         ∧ StronglySorted Z.lt w
         ∧ length w = (Z.to_nat 5 `min` size s)%nat
         ∧ (∀ x, x ∈ w → x ∈ s)
         ∧ (∀ x y, x ∈ s → x ∉ w → y ∈ w → x < y).
Proof.
  split; [by vm_compute|].
  apply (window_keeps_newest run0 (_filenames run0 (reverse twenty))
           [_filenames run1 (twenty ++ [105])] (list_to_set twenty)).
  - simpl. lia.
  - by vm_compute.
Defined.

(** The example of the specification: of the twenty survivors
    5, 10, ..., 100 a controller with [cp_interval = 5] keeps the five
    newest, in whatever order the root's list names them and whatever else
    another rank holds. *)
Example window_twenty :
  window 5 (list_to_set twenty) = [80; 85; 90; 95; 100]
  ∧ surviving run0 (_filenames run0 (reverse twenty))
      [_filenames run1 (twenty ++ [105])] = Ok (list_to_set twenty)
  ∧ size (list_to_set twenty : gset Z) = 20%nat.
Proof. repeat split; by vm_compute. Qed.

(** With fewer survivors than [cp_interval] all of them are kept. *)
Example window_few :
  coordinate run0 ["run.0.30"; "run.0.10"; "run.0.20"]
    [["run.1.20"; "run.1.40"; "run.1.10"]] = Ok [10; 20].
Proof. by vm_compute. Qed.

(** The window never has more than [cp_interval] members. *)
Lemma window_length (cp : Z) (s : gset Z) :
  0 < cp → Z.of_nat (length (window cp s)) ≤ cp.
Proof.
  intros Hcp. unfold window. rewrite slice_from_newest, length_drop by done. lia.
Qed.

End coordinator.

(** ** Reasoning about the monad *)

Section monad.

Context {A B : Type}.
Implicit Types (st : state).

Lemma bind_eq (m : M A) (f : A → M B) st :
  (m ≫= f) st
  = match m st with
    | (Ok a, st') => f a st'
    | (Raise e, st') => (Raise e, st')
    end.
Proof. done. Qed.

Lemma bind_Ok (m : M A) (f : A → M B) st (b : B) st' :
  (m ≫= f) st = (Ok b, st') →
  ∃ a st1, m st = (Ok a, st1) ∧ f a st1 = (Ok b, st').
Proof.
  rewrite bind_eq. destruct (m st) as [[a|e] st1]; [eauto|done].
Qed.

End monad.

Section preservation.

Context {A B C : Type}.
Implicit Types (proj : state → C) (st : state).

Lemma preserves_mret proj (a : A) : preserves proj (mret a).
Proof. by intros st. Qed.

Lemma preserves_raise proj (e : exn) : preserves proj (raise (A := A) e).
Proof. by intros st. Qed.

Lemma preserves_lift proj (r : result A) : preserves proj (lift r).
Proof. by intros st. Qed.

Lemma preserves_bind proj (m : M A) (f : A → M B) :
  preserves proj m → (∀ a, preserves proj (f a)) → preserves proj (m ≫= f).
Proof.
  intros Hm Hf st. rewrite bind_eq. specialize (Hm st).
  destruct (m st) as [[a|e] st1]; simpl in *; [|done]. by rewrite Hf.
Qed.

Lemma preserves_try proj (m : M A) (h : exn → M A) :
  preserves proj m → (∀ e, preserves proj (h e)) → preserves proj (try_except m h).
Proof.
  intros Hm Hh st. unfold try_except. specialize (Hm st).
  destruct (m st) as [[a|e] st1]; simpl in *; [done|]. by rewrite Hh.
Qed.

Lemma preserves_for_each proj (l : list A) (body : A → M unit) :
  (∀ x, preserves proj (body x)) → preserves proj (for_each l body).
Proof.
  intros Hbody. induction l as [|x l IH]; cbn [for_each].
  - by intros st.
  - intros st. rewrite bind_eq. specialize (Hbody x st).
    destruct (body x st) as [[[]|e] st1]; simpl in *; [|done]. by rewrite IH.
Qed.

End preservation.

Lemma preserves_get {C : Type} (proj : state → C) : preserves proj get.
Proof. by intros st. Qed.

(** Pushes [preserves] through the combinators, down to the primitive
    state changes, which either keep the component by computation or do
    not. *)
Ltac solve_preserves :=
  repeat first
    [ apply preserves_bind; [|intros ?]
    | apply preserves_try; [|intros ?]
    | apply preserves_for_each; intros ?
    | apply preserves_mret
    | apply preserves_raise
    | apply preserves_lift
    | apply preserves_get
    | case_match
    | by intros ? ].

Section frames.

Implicit Types (p : option string) (file : string * string).

(** Only [set_self] changes the controller, and nothing changes the
    environment. *)
Lemma Os_remove_self file : preserves self (Os.remove file).
Proof. unfold Os.remove. solve_preserves. Qed.

Lemma _maybe_makedirs_self p : preserves self (_maybe_makedirs p).
Proof. unfold _maybe_makedirs, Os.makedirs, Os.isdir. solve_preserves. Qed.

Lemma _save_self p filename target : preserves self (_save p filename target).
Proof.
  unfold _save, Os.mkstemp, Os.save_npz, Os.close, Os.remove, Os.join, Os.move.
  pose proof (_maybe_makedirs_self p). solve_preserves.
Qed.

Lemma _save_env p filename target : preserves env (_save p filename target).
Proof.
  unfold _save, _maybe_makedirs, Os.makedirs, Os.isdir, Os.mkstemp, Os.save_npz,
    Os.close, Os.remove, Os.join, Os.move.
  solve_preserves.
Qed.

End frames.

(** ** The file system *)

Section files.

Implicit Types (f : filesystem) (file q : string * string).

Lemma lookup_drop_file f file q :
  lookup_file (drop_file f file) q
  = if decide (q = file) then None else lookup_file f q.
Proof.
  unfold lookup_file, drop_file. destruct file as [d n], q as [d' n']. simpl.
  destruct (f !! d) as [entries|] eqn:Hd.
  - destruct (decide (d' = d)) as [->|Hne].
    + rewrite lookup_insert_eq, Hd. simpl.
      destruct (decide (n' = n)) as [->|Hn].
      * by rewrite decide_True, lookup_delete_eq.
      * rewrite decide_False by congruence. by rewrite lookup_delete_ne.
    + rewrite lookup_insert_ne by done. by rewrite decide_False by congruence.
  - case_decide as Heq; [|done]. injection Heq as -> ->. by rewrite Hd.
Qed.

Lemma lookup_store_file f file bytes q :
  is_Some (f !! file.1) →
  lookup_file (store_file f file bytes) q
  = if decide (q = file) then Some bytes else lookup_file f q.
Proof.
  unfold lookup_file, store_file. destruct file as [d n], q as [d' n']. simpl.
  intros [entries Hd]. rewrite Hd.
  destruct (decide (d' = d)) as [->|Hne].
  - rewrite lookup_insert_eq, Hd. simpl.
    destruct (decide (n' = n)) as [->|Hn].
    + by rewrite decide_True, lookup_insert_eq.
    + rewrite decide_False by congruence. by rewrite lookup_insert_ne.
  - rewrite lookup_insert_ne by done. by rewrite decide_False by congruence.
Qed.

Lemma lookup_file_mkdir f d q :
  f !! d = None → lookup_file (<[d := ∅]> f) q = lookup_file f q.
Proof.
  intros Hd. unfold lookup_file. destruct (decide (q.1 = d)) as [->|Hne].
  - by rewrite lookup_insert_eq, Hd.
  - by rewrite lookup_insert_ne.
Qed.

(** A delete whose failure is swallowed: the call returns, and afterwards
    the file is not there. *)
Lemma remove_swallowed file st :
  ∃ st', try_except (Os.remove file) (λ _, mret tt) st = (Ok tt, st')
         ∧ self st' = self st ∧ env st' = env st ∧ open_fds st' = open_fds st
         ∧ ∀ q, lookup_file (fs st') q
                = if decide (q = file) then None else lookup_file (fs st) q.
Proof.
  unfold try_except, Os.remove, get, write_fs, raise, mbind, M_bind, mret, M_ret.
  destruct (lookup_file (fs st) file) eqn:Hfile; eexists; (split; [done|]);
    repeat split; simpl; intros q.
  - apply lookup_drop_file.
  - case_decide; by subst.
Qed.

(** A loop of swallowed deletes inside directory [p]. *)
Lemma for_each_remove (p : option string) (body : string → M unit) (l : list string) :
  (∀ x st, ∃ st', body x st = (Ok tt, st')
      ∧ self st' = self st ∧ env st' = env st ∧ open_fds st' = open_fds st
      ∧ ∀ q, lookup_file (fs st') q
             = if decide (p = Some q.1 ∧ q.2 = x) then None
               else lookup_file (fs st) q) →
  ∀ st, ∃ st', for_each l body st = (Ok tt, st')
      ∧ self st' = self st ∧ env st' = env st ∧ open_fds st' = open_fds st
      ∧ ∀ q, lookup_file (fs st') q
             = if decide (p = Some q.1 ∧ q.2 ∈ l) then None
               else lookup_file (fs st) q.
Proof.
  intros Hbody. induction l as [|x l IH]; intros st; cbn [for_each].
  - exists st. repeat split. intros q. rewrite decide_False; [done|].
    intros [_ Hin]. by apply elem_of_nil in Hin.
  - rewrite bind_eq.
    destruct (Hbody x st) as (st1 & -> & Hself1 & Henv1 & Hfds1 & Hfs1).
    destruct (IH st1) as (st2 & -> & Hself2 & Henv2 & Hfds2 & Hfs2).
    exists st2. split; [done|]. repeat split; try congruence.
    intros q. rewrite Hfs2, Hfs1.
    repeat case_decide; try done; exfalso;
      rewrite elem_of_cons in *; naive_solver.
Qed.

Lemma remove_in_try (p : option string) (x : string) st :
  ∃ st', try_except (f ← Os.join p x; Os.remove f) (λ _, mret tt) st = (Ok tt, st')
      ∧ self st' = self st ∧ env st' = env st ∧ open_fds st' = open_fds st
      ∧ ∀ q, lookup_file (fs st') q
             = if decide (p = Some q.1 ∧ q.2 = x) then None
               else lookup_file (fs st) q.
Proof.
  destruct p as [d|].
  - destruct (remove_swallowed (d, x) st) as (st' & Hrun & ? & ? & ? & Hfs).
    exists st'. split; [exact Hrun|]. repeat split; try done.
    intros q. rewrite Hfs. destruct q as [d' n'].
    repeat case_decide; naive_solver.
  - exists st. by repeat split.
Qed.

Lemma remove_after_join (d : string) (x : string) st :
  ∃ st', (filename ← Os.join (Some d) x;
          try_except (Os.remove filename) (λ _, mret tt)) st = (Ok tt, st')
      ∧ self st' = self st ∧ env st' = env st ∧ open_fds st' = open_fds st
      ∧ ∀ q, lookup_file (fs st') q
             = if decide (Some d = Some q.1 ∧ q.2 = x) then None
               else lookup_file (fs st) q.
Proof.
  destruct (remove_swallowed (d, x) st) as (st' & Hrun & ? & ? & ? & Hfs).
  exists st'. split; [exact Hrun|]. repeat split; try done.
  intros q. rewrite Hfs. destruct q as [d' n'].
  repeat case_decide; naive_solver.
Qed.

End files.

(** ** The quorum round *)

Section sync.

Implicit Types (st : state) (w : list Z).

(** The round, case by case. *)
Lemma sync_cases (b : bool) st :
  _sync_file_list b st
  = if decide (comm_rank (self st) = 0) then
      match gather_out (env st) with
      | Some [] => set_self (λ me, with_files me []) st
      | Some (fl0 :: fls) =>
          match coordinate (self st) fl0 fls with
          | Ok w => rebuild b w st
          | Raise e => (Raise e, st)
          end
      | None => (Raise RuntimeError, st)
      end
    else rebuild b (bcast_in (env st)) st.
Proof.
  unfold _sync_file_list, Mpi.gather, Mpi.bcast, get, mbind, M_bind, mret, M_ret,
    lift, raise, set_self.
  simpl.
  destruct (decide (comm_rank (self st) = 0)) as [Hr|Hr].
  - destruct (gather_out (env st)) as [[|fl0 fls]|]; [done| |done].
    destruct (coordinate (self st) fl0 fls); [|done].
    by rewrite decide_True.
  - by rewrite decide_False.
Qed.

Lemma rebuild_keep w st :
  rebuild false w st = set_self (λ me, with_files me (_filenames (self st) w)) st.
Proof. done. Qed.

Lemma rebuild_remove w st :
  ∃ st', rebuild true w st = (Ok tt, st')
      ∧ self st' = with_files (self st) (_filenames (self st) w)
      ∧ env st' = env st ∧ open_fds st' = open_fds st
      ∧ ∀ q, lookup_file (fs st') q
             = if decide (path (self st) = Some q.1
                          ∧ q.2 ∈ files (self st)
                          ∧ q.2 ∉ _filenames (self st) w)
               then None else lookup_file (fs st) q.
Proof.
  unfold rebuild. rewrite bind_eq. cbn [get]. rewrite bind_eq.
  edestruct (for_each_remove (path (self st))) as (st1 & -> & Hself & Henv & Hfds & Hfs);
    [apply remove_in_try|].
  eexists. split; [done|]. simpl. rewrite Hself, Henv, Hfds.
  repeat split. intros q. rewrite Hfs.
  apply decide_ext.
  rewrite elem_of_elements, elem_of_difference, !elem_of_list_to_set. tauto.
Qed.

Lemma coordinate_length (me : DistCPRExtension) (fl0 : list string)
    (fls : list (list string)) w :
  0 < cp_interval me →
  coordinate me fl0 fls = Ok w → Z.of_nat (length w) ≤ cp_interval me.
Proof.
  intros Hcp. unfold coordinate.
  destruct (surviving me fl0 fls) as [s|]; [|done].
  intros [= <-]. by apply window_length.
Qed.

Lemma _parse_filenames_ext (me me' : DistCPRExtension) (l : list string) :
  name me = name me' → _parse_filenames me l = _parse_filenames me' l.
Proof.
  intros Hname. induction l as [|f l IH]; [done|].
  cbn [_parse_filenames]. unfold _parse_filename. by rewrite Hname, IH.
Qed.

Lemma coordinate_ext (me me' : DistCPRExtension) (fl0 : list string)
    (fls : list (list string)) :
  name me = name me' → cp_interval me = cp_interval me' →
  coordinate me fl0 fls = coordinate me' fl0 fls.
Proof.
  intros Hname Hcp.
  assert (∀ fl, iteration_set me fl = iteration_set me' fl) as Hset.
  { intros fl. unfold iteration_set. by rewrite (_parse_filenames_ext me me'). }
  assert (∀ s, intersect_rest me s fls = intersect_rest me' s fls) as Hrest.
  { induction fls as [|fl fls IH]; intros s; [done|].
    cbn [intersect_rest]. rewrite Hset. by destruct (iteration_set me' fl). }
  unfold coordinate, surviving. rewrite Hset, Hcp.
  destruct (iteration_set me' fl0); [|done]. by rewrite Hrest.
Qed.

Lemma agreed_ext st st' :
  name (self st') = name (self st) →
  cp_interval (self st') = cp_interval (self st) →
  comm_rank (self st') = comm_rank (self st) →
  env st' = env st →
  agreed st' = agreed st.
Proof.
  intros Hname Hcp Hrank Henv. unfold agreed. rewrite Hrank, Henv.
  case_decide; [|done].
  destruct (gather_out (env st)) as [[|fl0 fls]|]; try done.
  by rewrite (coordinate_ext (self st') (self st)).
Qed.

(** A round with removal that returns normally either left by the
    coordinator's early return or adopted the agreed list. *)
Lemma sync_remove_adopts st st' :
  _sync_file_list true st = (Ok tt, st') →
  (comm_rank (self st) = 0 ∧ gather_out (env st) = Some []
   ∧ self st' = with_files (self st) [])
  ∨ ∃ w, agreed st = Some w
         ∧ self st' = with_files (self st) (_filenames (self st) w).
Proof.
  unfold agreed. rewrite sync_cases. case_decide as Hrank.
  - destruct (gather_out (env st)) as [[|fl0 fls]|]; [|  |done].
    + intros [= <-]. by left.
    + destruct (coordinate (self st) fl0 fls) as [w|]; [|done].
      destruct (rebuild_remove w st) as (st1 & -> & Hself & _).
      intros [= <-]. right. by exists w.
  - destruct (rebuild_remove (bcast_in (env st)) st) as (st1 & -> & Hself & _).
    intros [= <-]. right. by eexists.
Qed.

(** The agreed list is a window: on the root by the coordinator's own
    computation, on another rank when what the broadcast delivers was
    computed by a root that keeps as many generations as this rank. *)
Lemma agreed_length st w :
  0 < cp_interval (self st) →
  (comm_rank (self st) ≠ 0 →
   ∃ (root : DistCPRExtension) (fl0 : list string) (fls : list (list string)),
     cp_interval root = cp_interval (self st)
     ∧ coordinate root fl0 fls = Ok (bcast_in (env st))) →
  agreed st = Some w →
  Z.of_nat (length w) ≤ cp_interval (self st).
Proof.
  intros Hcp Hbcast. unfold agreed. case_decide as Hrank.
  - destruct (gather_out (env st)) as [[|fl0 fls]|]; [done| |done].
    destruct (coordinate (self st) fl0 fls) as [w0|] eqn:Hw; [|done].
    intros [= <-]. by eapply coordinate_length.
  - intros [= <-]. destruct (Hbcast Hrank) as (root & fl0 & fls & Hroot & Hw).
    rewrite <-Hroot. eapply coordinate_length; [by rewrite Hroot|done].
Qed.

(** The only exceptions the coordinator's computation raises are those of
    the decoder and of the unpacking. *)
Lemma _parse_filenames_raises (me : DistCPRExtension) (l : list string) (e : exn) :
  _parse_filenames me l = Raise e → e = ValueError.
Proof.
  induction l as [|f l IH]; [done|]. cbn [_parse_filenames].
  destruct (_parse_filename me f) as [t|e'] eqn:Hf.
  - destruct (_parse_filenames me l); [done|]. intros [= <-]. by apply IH.
  - intros [= <-]. unfold _parse_filename in Hf.
    repeat case_match; by simplify_eq.
Qed.

Lemma unpack_iterations_raises (parsed : list (option (string * Z * Z))) (e : exn) :
  unpack_iterations parsed = Raise e → e = TypeError.
Proof.
  induction parsed as [|[[[nm r] i]|] parsed IH]; cbn [unpack_iterations];
    [done| |congruence].
  destruct (unpack_iterations parsed); [done|]. intros [= <-]. by apply IH.
Qed.

Lemma iteration_set_raises (me : DistCPRExtension) (fl : list string) (e : exn) :
  iteration_set me fl = Raise e → e = ValueError ∨ e = TypeError.
Proof.
  unfold iteration_set.
  destruct (_parse_filenames me fl) as [parsed|e'] eqn:Hp.
  - destruct (unpack_iterations parsed) eqn:Hu; [done|].
    intros [= <-]. right. by eapply unpack_iterations_raises.
  - intros [= <-]. left. by eapply _parse_filenames_raises.
Qed.

Lemma coordinate_raises (me : DistCPRExtension) (fl0 : list string)
    (fls : list (list string)) (e : exn) :
  coordinate me fl0 fls = Raise e → e = ValueError ∨ e = TypeError.
Proof.
  unfold coordinate, surviving.
  destruct (iteration_set me fl0) as [s0|e'] eqn:H0;
    [|intros [= <-]; by eapply iteration_set_raises].
  destruct (intersect_rest me s0 fls) as [s|e'] eqn:Hrest; [done|].
  intros [= <-]. clear H0. revert s0 Hrest.
  induction fls as [|fl fls IH]; intros s0; cbn [intersect_rest]; [done|].
  destruct (iteration_set me fl) as [s1|e''] eqn:H1.
  - intros Hrest. by apply (IH (s0 ∩ s1)).
  - intros [= <-]. by eapply iteration_set_raises.
Qed.

(** The end of a round never raises: a failed delete is swallowed. *)
Lemma rebuild_returns (b : bool) w st : (rebuild b w st).1 = Ok tt.
Proof.
  destruct b; [|done].
  by destruct (rebuild_remove w st) as (st' & -> & _).
Qed.

(** C2, as the code has it.  On the coordinator an empty gathered
    sequence ends the round normally: the only change is that the tracked
    list becomes empty, so no file is deleted, and nothing is raised.  The
    round raises the protocol error [RuntimeError] exactly when it runs on
    the coordinator and the gather has a null result there, and then it
    changes nothing. *)
Theorem sync_empty_gather_returns (b : bool) st :
  (comm_rank (self st) = 0 → gather_out (env st) = Some [] →
   _sync_file_list b st = (Ok tt, state_with_self st (with_files (self st) []))
   ∧ files (self (_sync_file_list b st).2) = []
   ∧ fs (_sync_file_list b st).2 = fs st
   ∧ seen (_sync_file_list b st).2 = seen st)
  ∧ ((_sync_file_list b st).1 = Raise RuntimeError
     ↔ comm_rank (self st) = 0 ∧ gather_out (env st) = None)
  ∧ (comm_rank (self st) = 0 → gather_out (env st) = None →
     _sync_file_list b st = (Raise RuntimeError, st)).
Proof.
  rewrite sync_cases. split; [|split].
  - intros Hrank Hgather. by rewrite decide_True, Hgather.
  - case_decide as Hrank.
    + destruct (gather_out (env st)) as [[|fl0 fls]|]; [naive_solver| |naive_solver].
      destruct (coordinate (self st) fl0 fls) as [w|e] eqn:Hw.
      * rewrite rebuild_returns. naive_solver.
      * cbn. split; [|naive_solver]. intros [= ->].
        apply coordinate_raises in Hw. naive_solver.
    + rewrite rebuild_returns. naive_solver.
  - intros Hrank Hgather. by rewrite decide_True, Hgather.
Qed.

Lemma sync_empty_gather_returns_witness :
  _sync_file_list true empty_gather_state
  = (Ok tt, state_with_self empty_gather_state
              (with_files (self empty_gather_state) []))
  ∧ files (self (_sync_file_list true empty_gather_state).2) = []
  ∧ fs (_sync_file_list true empty_gather_state).2 = fs empty_gather_state
  ∧ seen (_sync_file_list true empty_gather_state).2 = seen empty_gather_state.
Proof.
  destruct (sync_empty_gather_returns true empty_gather_state) as [Hempty _].
  apply Hempty; reflexivity.
Defined.

(** C2, as the claim has it, fails: the coordinator that gathers an empty
    sequence raises nothing. *)
Lemma sync_empty_gather_no_error :
  comm_rank (self empty_gather_state) = 0
  ∧ gather_out (env empty_gather_state) = Some []
  ∧ (_sync_file_list true empty_gather_state).1 = Ok tt
  ∧ (∀ e, (_sync_file_list true empty_gather_state).1 ≠ Raise e)
  ∧ files (self (_sync_file_list true empty_gather_state).2) = [].
Proof. repeat split; by vm_compute. Qed.

(** C9.  A round run without [remove_remainder] leaves the file system as
    it found it, whatever it agrees on and however it ends.  A round run
    with [remove_remainder] that adopts a list returns normally, whether
    or not the deletes succeed, and has deleted from [self.path] exactly
    the names that were tracked and are not in the new list; a round that
    ends without adopting a list deletes nothing. *)
Theorem sync_removal st :
  (fs (_sync_file_list false st).2 = fs st
   ∧ seen (_sync_file_list false st).2 = seen st)
  ∧ (∀ w, agreed st = Some w →
       ∃ st', _sync_file_list true st = (Ok tt, st')
         ∧ files (self st') = _filenames (self st) w
         ∧ ∀ q, lookup_file (fs st') q
                = if decide (path (self st) = Some q.1
                             ∧ q.2 ∈ files (self st)
                             ∧ q.2 ∉ files (self st'))
                  then None else lookup_file (fs st) q)
  ∧ (agreed st = None →
     fs (_sync_file_list true st).2 = fs st
     ∧ seen (_sync_file_list true st).2 = seen st).
Proof.
  unfold agreed. rewrite !sync_cases.
  destruct (decide (comm_rank (self st) = 0)) as [Hr|Hr].
  - destruct (gather_out (env st)) as [[|fl0 fls]|]; [done| |done].
    destruct (coordinate (self st) fl0 fls) as [w0|]; [|done].
    split; [done|]. split; [|done]. intros w [= <-].
    destruct (rebuild_remove w0 st) as (st' & -> & Hself & _ & _ & Hfs).
    exists st'. split; [done|]. rewrite Hself. by split.
  - split; [done|]. split; [|done]. intros w [= <-].
    destruct (rebuild_remove (bcast_in (env st)) st) as (st' & -> & Hself & _ & _ & Hfs).
    exists st'. split; [done|]. rewrite Hself. by split.
Qed.

Lemma sync_removal_witness :
  ∃ st', _sync_file_list true gc_state = (Ok tt, st')
    ∧ files (self st') = ["run.0.5"; "run.0.7"]
    ∧ ∀ q, lookup_file (fs st') q
           = if decide (path (self gc_state) = Some q.1
                        ∧ q.2 ∈ files (self gc_state)
                        ∧ q.2 ∉ files (self st'))
             then None else lookup_file (fs gc_state) q.
Proof.
  destruct (sync_removal gc_state) as (_ & Hremove & _).
  apply (Hremove [5; 7]). by vm_compute.
Defined.

(** On [gc_state] the round drops iterations 1 and 3: the file of
    iteration 3 goes, the delete of the missing file of iteration 1 fails
    silently, and the file that is not tracked stays. *)
Example sync_removal_run :
  let st' := (_sync_file_list true gc_state).2 in
  (_sync_file_list true gc_state).1 = Ok tt
  ∧ fs st' = {[ "result" := {[ "run.0.5" := "five"; "run.0.7" := "seven";
                               "notes.txt" := "x" ]} ]}
  ∧ fs (_sync_file_list false gc_state).2 = fs gc_state.
Proof. repeat split; by vm_compute. Qed.

End sync.

(** ** The atomic write *)

Section save.

Implicit Types (st : state) (f : filesystem) (file q : string * string).

Lemma string_length_app (s1 s2 : string) :
  String.length (s1 +:+ s2) = (String.length s1 + String.length s2)%nat.
Proof. induction s1 as [|c s1 IH]; simpl; [done|]. by rewrite IH. Qed.

(** The temporary name is never the final name. *)
Lemma tmp_name_differs (filename suffix : string) :
  "tmp-" +:+ filename +:+ suffix ≠ filename.
Proof.
  intros Heq. apply (f_equal String.length) in Heq.
  rewrite !string_length_app in Heq. simpl in Heq. lia.
Qed.

Lemma store_file_dir f file bytes (d : string) :
  is_Some (store_file f file bytes !! d) ↔ is_Some (f !! d).
Proof.
  unfold store_file. destruct (f !! file.1) eqn:E; [|done].
  destruct (decide (d = file.1)) as [->|Hne].
  - rewrite lookup_insert_eq, E. split; eauto.
  - by rewrite lookup_insert_ne.
Qed.

Lemma drop_file_dir f file (d : string) :
  is_Some (drop_file f file !! d) ↔ is_Some (f !! d).
Proof.
  unfold drop_file. destruct (f !! file.1) eqn:E; [|done].
  destruct (decide (d = file.1)) as [->|Hne].
  - rewrite lookup_insert_eq, E. split; eauto.
  - by rewrite lookup_insert_ne.
Qed.

Lemma lookup_store_file_same f file (bytes : string) :
  is_Some (f !! file.1) → lookup_file (store_file f file bytes) file = Some bytes.
Proof. intros Hd. by rewrite lookup_store_file, decide_True. Qed.

Lemma _maybe_makedirs_run (d : string) st :
  ∃ st0 tr0, _maybe_makedirs (Some d) st = (Ok tt, st0)
    ∧ is_Some (fs st0 !! d)
    ∧ (∀ q, lookup_file (fs st0) q = lookup_file (fs st) q)
    ∧ open_fds st0 = open_fds st ∧ env st0 = env st
    ∧ seen st0 = tr0 ++ seen st ∧ (∀ f, f ∈ tr0 → f = fs st).
Proof.
  unfold _maybe_makedirs, try_except, Os.makedirs, Os.isdir.
  rewrite bind_eq. cbn [get].
  destruct (fs st !! d) as [entries|] eqn:Hd.
  - exists st, []. cbn [raise]. rewrite !bind_eq. cbn [get mret M_ret].
    rewrite bool_decide_eq_true_2 by eauto.
    repeat split; eauto. intros f Hf. by apply elem_of_nil in Hf.
  - exists (state_with_fs st (<[d := ∅]> (fs st))), [fs st].
    repeat split; cbn.
    + by rewrite lookup_insert_eq.
    + intros q. by apply lookup_file_mkdir.
    + intros f Hf. by apply list_elem_of_singleton in Hf.
Qed.

Lemma mkstemp_run (prefix d : string) st :
  is_Some (fs st !! d) →
  lookup_file (fs st) (d, prefix +:+ mkstemp_suffix (env st)) = None →
  Os.mkstemp prefix (Some d) st
  = (Ok (fresh (open_fds st), (d, prefix +:+ mkstemp_suffix (env st))),
     state_with_fds
       (state_with_fs st
          (store_file (fs st) (d, prefix +:+ mkstemp_suffix (env st)) EmptyString))
       ({[fresh (open_fds st)]} ∪ open_fds st)).
Proof.
  intros [entries Hd] Htmp. unfold lookup_file in Htmp. cbn [fst snd] in Htmp.
  rewrite Hd in Htmp. cbn [mbind option_bind] in Htmp.
  unfold Os.mkstemp. rewrite bind_eq. cbn [get default fst snd]. cbv zeta.
  cbn [default fst snd]. unfold id. rewrite Hd, Htmp. done.
Qed.

Lemma save_npz_run file target st :
  is_Some (fs st !! file.1) →
  Os.save_npz file target st
  = match save_fault (env st) with
    | Some k =>
        (Raise IOError,
         state_with_fs st
           (store_file (fs st) file (String.substring 0 k (snapshot target))))
    | None =>
        (Ok tt, state_with_fs st (store_file (fs st) file (snapshot target)))
    end.
Proof.
  intros [entries Hd]. unfold Os.save_npz. rewrite bind_eq. cbn [get].
  rewrite Hd. by destruct (save_fault (env st)).
Qed.

Lemma close_run (fd : nat) st :
  fd ∈ open_fds st →
  Os.close fd st = (Ok tt, state_with_fds st (open_fds st ∖ {[fd]})).
Proof.
  intros Hfd. unfold Os.close. rewrite bind_eq. cbn [get]. by rewrite decide_True.
Qed.

Lemma remove_run file st (bytes : string) :
  lookup_file (fs st) file = Some bytes →
  Os.remove file st = (Ok tt, state_with_fs st (drop_file (fs st) file)).
Proof.
  intros Hfile. unfold Os.remove. rewrite bind_eq. cbn [get]. by rewrite Hfile.
Qed.

Lemma move_run (src dst : string * string) st (bytes : string) :
  lookup_file (fs st) src = Some bytes →
  is_Some (fs st !! dst.1) →
  Os.move src dst st
  = (Ok tt, state_with_fs st (store_file (drop_file (fs st) src) dst bytes)).
Proof.
  intros Hsrc [entries Hd]. unfold Os.move. rewrite bind_eq. cbn [get].
  by rewrite Hsrc, Hd.
Qed.

Local Ltac dirs :=
  repeat first [apply store_file_dir | apply drop_file_dir]; done.

Local Ltac look :=
  repeat first [rewrite lookup_drop_file | rewrite lookup_store_file by dirs];
  repeat case_decide; simplify_eq; try done; try congruence.

(** C7.  [_save] into directory [d], with the temporary name free as
    [mkstemp] guarantees.  Whatever happens, the descriptor is closed
    again, no file other than the final one differs from before at the
    end (the temporary file is gone), and no file other than the final and
    the temporary one differs at any moment.  If serialisation fails the
    failure is raised and the final name holds, at every moment and at
    the end, what it held before.  If it succeeds the final name holds
    the complete serialisation at the end, held its old contents at every
    earlier moment, and got the new ones by the rename of the completely
    written temporary file. *)
Theorem save_atomic (d filename : string) target st :
  let final := (d, filename) in
  let tmp := (d, ("tmp-" +:+ filename) +:+ mkstemp_suffix (env st)) in
  let r := _save (Some d) filename target st in
  lookup_file (fs st) tmp = None →
  ∃ tr, seen r.2 = tr ++ seen st
    ∧ open_fds r.2 = open_fds st
    ∧ (∀ q, q ≠ final → lookup_file (fs r.2) q = lookup_file (fs st) q)
    ∧ (∀ f q, f ∈ tr → q ≠ final → q ≠ tmp →
              lookup_file f q = lookup_file (fs st) q)
    ∧ match save_fault (env st) with
      | Some k =>
          r.1 = Raise IOError
          ∧ ∀ f, f ∈ fs r.2 :: tr →
                 lookup_file f final = lookup_file (fs st) final
      | None =>
          r.1 = Ok tt
          ∧ lookup_file (fs r.2) final = Some (snapshot target)
          ∧ (∀ f, f ∈ tr → lookup_file f final = lookup_file (fs st) final)
          ∧ ∃ f tr', tr = f :: tr'
              ∧ lookup_file f tmp = Some (snapshot target)
              ∧ fs r.2 = store_file (drop_file f tmp) final (snapshot target)
      end.
Proof.
  intros final tmp r Htmp. subst r. unfold _save. rewrite bind_eq.
  destruct (_maybe_makedirs_run d st)
    as (st0 & tr0 & -> & Hdir0 & Hfs0 & Hfds0 & Henv0 & Hseen0 & Htr0).
  cbv zeta beta. rewrite bind_eq.
  rewrite mkstemp_run; [|done|by rewrite Hfs0, Henv0].
  rewrite Henv0. fold tmp. cbv beta iota.
  assert (Hfresh : fresh (open_fds st0) ∉ open_fds st0) by apply is_fresh.
  set (fd := fresh (open_fds st0)) in *.
  assert (Hne : tmp ≠ final).
  { intros [= Heq]. by apply tmp_name_differs in Heq. }
  rewrite bind_eq. unfold try_except.
  rewrite save_npz_run by (by apply store_file_dir).
  cbn [env state_with_fs state_with_fds]. rewrite Henv0.
  destruct (save_fault (env st)) as [k|].
  - (* serialisation fails after [k] bytes *)
    rewrite bind_eq, close_run by (cbn; set_solver).
    rewrite bind_eq.
    erewrite remove_run
      by (cbn; apply lookup_store_file_same; by apply store_file_dir).
    cbn [raise fst snd seen fs open_fds state_with_fs state_with_fds].
    eexists (_ :: _ :: _ :: tr0). rewrite Hseen0. split; [done|].
    split; [rewrite <-Hfds0; set_solver|].
    split; [intros q Hq; look|]. split; [|split; [done|]].
    + intros f q Hf Hq Hq'. rewrite !elem_of_cons in Hf.
      destruct Hf as [->|[->|[->|Hf]]]; [..|apply Htr0 in Hf as ->]; look.
    + intros f Hf. rewrite !elem_of_cons in Hf.
      destruct Hf as [->|[->|[->|[->|Hf]]]]; [..|apply Htr0 in Hf as ->]; look.
  - (* serialisation succeeds *)
    rewrite bind_eq, close_run by (cbn; set_solver).
    rewrite bind_eq. cbn [Os.join mret M_ret].
    erewrite move_run;
      [|cbn; apply lookup_store_file_same; by apply store_file_dir
       |cbn; by do 2 apply store_file_dir].
    cbn [fst snd seen fs open_fds state_with_fs state_with_fds].
    fold final.
    eexists (_ :: _ :: _ :: tr0). rewrite Hseen0. split; [done|].
    split; [rewrite <-Hfds0; set_solver|].
    split; [intros q Hq; look|]. split; [|split; [done|]; split; [|split]].
    + intros f q Hf Hq Hq'. rewrite !elem_of_cons in Hf.
      destruct Hf as [->|[->|[->|Hf]]]; [..|apply Htr0 in Hf as ->]; look.
    + look.
    + intros f Hf. rewrite !elem_of_cons in Hf.
      destruct Hf as [->|[->|[->|Hf]]]; [..|apply Htr0 in Hf as ->]; look.
    + eexists _, _. split; [done|]. split; [|done].
      apply lookup_store_file_same. by apply store_file_dir.
Qed.

Lemma save_atomic_witness :
  let final := ("result", "run.0.9") in
  let tmp := ("result", "tmp-run.0.9k3x9") in
  let r := _save (Some "result") "run.0.9" fresh_weights faulty_state in
  ∃ tr, seen r.2 = tr ++ seen faulty_state
    ∧ open_fds r.2 = open_fds faulty_state
    ∧ (∀ q, q ≠ final → lookup_file (fs r.2) q = lookup_file (fs faulty_state) q)
    ∧ (∀ f q, f ∈ tr → q ≠ final → q ≠ tmp →
              lookup_file f q = lookup_file (fs faulty_state) q)
    ∧ r.1 = Raise IOError
    ∧ ∀ f, f ∈ fs r.2 :: tr →
           lookup_file f final = lookup_file (fs faulty_state) final.
Proof.
  apply (save_atomic "result" "run.0.9" fresh_weights faulty_state).
  by vm_compute.
Defined.

(** A write that fails after three bytes leaves the directory as it was;
    in between only the temporary file was visible. *)
Example save_fails_run :
  let r := _save (Some "result") "run.0.9" fresh_weights faulty_state in
  r.1 = Raise IOError
  ∧ fs r.2 = fs faulty_state
  ∧ open_fds r.2 = ∅
  ∧ (λ f, dom <$> f !! "result") <$> seen r.2
    = [Some (list_to_set ["run.0.5"; "tmp-run.0.9k3x9"]);
       Some (list_to_set ["run.0.5"; "tmp-run.0.9k3x9"]);
       Some (list_to_set ["run.0.5"])]
  ∧ (λ f, lookup_file f ("result", "tmp-run.0.9k3x9")) <$> seen r.2
    = [Some "wei"; Some EmptyString; None].
Proof. repeat split; by vm_compute. Qed.

(** A write that succeeds adds the final file, complete. *)
Example save_succeeds_run :
  let st := state_with_self stray_state run0 in
  let r := _save (Some "result") "run.0.9" fresh_weights st in
  r.1 = Ok tt
  ∧ fs r.2 = store_file (fs st) ("result", "run.0.9") "weights"
  ∧ (λ f, lookup_file f ("result", "run.0.9")) <$> seen r.2 = [None; None; None].
Proof. repeat split; by vm_compute. Qed.

(** When the name [mkstemp] would use is taken, it raises and nothing is
    written. *)
Lemma _maybe_makedirs_exists (d : string) st :
  is_Some (fs st !! d) → _maybe_makedirs (Some d) st = (Ok tt, st).
Proof.
  intros [entries Hd].
  unfold _maybe_makedirs, try_except, Os.makedirs, Os.isdir.
  rewrite bind_eq. cbn [get]. rewrite Hd. cbn [raise].
  rewrite !bind_eq. cbn [get mret M_ret].
  by rewrite bool_decide_eq_true_2 by eauto.
Qed.

Lemma save_tmp_taken (d filename : string) target st (bytes : string) :
  lookup_file (fs st) (d, ("tmp-" +:+ filename) +:+ mkstemp_suffix (env st))
  = Some bytes →
  _save (Some d) filename target st = (Raise OSError_EEXIST, st).
Proof.
  intros Htmp. unfold lookup_file in Htmp. cbn [fst snd] in Htmp.
  destruct (fs st !! d) as [entries|] eqn:Hd; [|done].
  cbn [mbind option_bind] in Htmp.
  unfold _save. rewrite bind_eq, _maybe_makedirs_exists by eauto.
  cbv zeta beta. rewrite bind_eq. unfold Os.mkstemp. rewrite bind_eq.
  cbn [get default fst snd]. cbv zeta. cbn [default fst snd]. unfold id.
  by rewrite Hd, Htmp.
Qed.

End save.

(** ** The life cycle of the controller *)

Section lifecycle.

Implicit Types (st : state) (target : trainer).

(** C8.  With a configured path, [finalize] returns normally, swallowing
    every failed delete, leaves no tracked generation and none of the
    formerly tracked files on disk; a second call returns normally as
    well and changes nothing at all. *)
Theorem finalize_twice st (d : string) :
  path (self st) = Some d →
  ∃ st1, finalize st = (Ok tt, st1)
    ∧ files (self st1) = []
    ∧ (∀ f, f ∈ files (self st) → lookup_file (fs st1) (d, f) = None)
    ∧ (∀ q, (q.1 = d → q.2 ∉ files (self st)) →
            lookup_file (fs st1) q = lookup_file (fs st) q)
    ∧ finalize st1 = (Ok tt, st1).
Proof.
  intros Hpath. unfold finalize. rewrite bind_eq. cbn [get]. rewrite Hpath, bind_eq.
  edestruct (for_each_remove (Some d)) as (st' & -> & Hself & Henv & Hfds & Hfs);
    [apply remove_after_join|].
  eexists. split; [done|]. simpl. split; [done|]. split; [|split].
  - intros f Hf. rewrite Hfs. by rewrite decide_True.
  - intros q Hq. rewrite Hfs. rewrite decide_False; [done|].
    intros [[= Hd] Hin]. by apply Hq.
  - rewrite bind_eq. simpl. rewrite Hself, Hpath. done.
Qed.

Lemma finalize_twice_witness :
  ∃ st1, finalize gc_state = (Ok tt, st1)
    ∧ files (self st1) = []
    ∧ (∀ f, f ∈ files (self gc_state) → lookup_file (fs st1) ("result", f) = None)
    ∧ (∀ q, (q.1 = "result" → q.2 ∉ files (self gc_state)) →
            lookup_file (fs st1) q = lookup_file (fs gc_state) q)
    ∧ finalize st1 = (Ok tt, st1).
Proof. apply (finalize_twice gc_state "result"). reflexivity. Defined.

(** On [gc_state], where one tracked file is already missing, both calls
    return and only the file that was never tracked is left. *)
Example finalize_run :
  let st1 := (finalize gc_state).2 in
  (finalize gc_state).1 = Ok tt
  ∧ fs st1 = {[ "result" := {[ "notes.txt" := "x" ]} ]}
  ∧ finalize st1 = (Ok tt, st1).
Proof. repeat split; by vm_compute. Qed.

(** Without a path the assertion at the head of [finalize] fails. *)
Lemma finalize_needs_path st :
  path (self st) = None → finalize st = (Raise AssertionError, st).
Proof. intros Hpath. unfold finalize. rewrite bind_eq. cbn [get]. by rewrite Hpath. Qed.

(** C10.  When [checkpoint] returns normally the tracked list has at most
    [cp_interval + 5] entries.  Either the list with the new name appended
    has at most [cp_interval + 5] entries, no round is run and that list is
    the tracked one; or it has more, a round is run and the tracked list is
    rebuilt from the agreed list, which has at most [cp_interval] entries:
    the names of this rank for exactly those iterations.  The collectives
    are those of a job: on the root the gather delivers at least one list,
    and on another rank the broadcast delivers what a root that keeps
    [cp_interval] generations computed from the lists it gathered. *)
Theorem checkpoint_bounds_tracked target (iteration : Z) st st' :
  let tracked := files (self st) ++ [_filename (self st) iteration] in
  0 < cp_interval (self st) →
  (comm_rank (self st) = 0 → gather_out (env st) ≠ Some []) →
  (comm_rank (self st) ≠ 0 →
   ∃ (root : DistCPRExtension) (fl0 : list string) (fls : list (list string)),
     cp_interval root = cp_interval (self st)
     ∧ coordinate root fl0 fls = Ok (bcast_in (env st))) →
  checkpoint target iteration st = (Ok tt, st') →
  cp_interval (self st') = cp_interval (self st)
  ∧ Z.of_nat (length (files (self st'))) ≤ cp_interval (self st') + 5
  ∧ ((Z.of_nat (length tracked) ≤ cp_interval (self st) + 5
      ∧ files (self st') = tracked)
     ∨ (cp_interval (self st) + 5 < Z.of_nat (length tracked)
        ∧ ∃ w, agreed st = Some w
               ∧ Z.of_nat (length w) ≤ cp_interval (self st)
               ∧ files (self st') = _filenames (self st) w)).
Proof.
  intros tracked Hcp Hgather Hbcast Hrun. unfold checkpoint in Hrun.
  apply bind_Ok in Hrun as (? & ? & [= <- <-] & Hrun).
  apply bind_Ok in Hrun as ([] & st1 & Hsave & Hrun).
  pose proof (_save_self (path (self st)) (_filename (self st) iteration) target st)
    as Hself.
  pose proof (_save_env (path (self st)) (_filename (self st) iteration) target st)
    as Henv.
  rewrite Hsave in Hself, Henv. simpl in Hself, Henv.
  apply bind_Ok in Hrun as ([] & st2 & [= <-] & Hrun).
  apply bind_Ok in Hrun as (? & ? & [= <- <-] & Hrun).
  cbn [self files cp_interval with_files state_with_self] in Hrun.
  rewrite Hself in Hrun. fold tracked in Hrun.
  case_decide as Hlen.
  - (* a round with removal *)
    set (st2 := state_with_self st1 (with_files (self st) tracked)) in *.
    assert (agreed st2 = agreed st) as Hagreed by by apply agreed_ext.
    apply sync_remove_adopts in Hrun as [(Hrank & Hempty & _)|(w & Hw & Hst')].
    { exfalso. apply Hgather; [exact Hrank|]. by rewrite <-Henv. }
    rewrite Hagreed in Hw.
    pose proof (agreed_length st w Hcp Hbcast Hw) as Hwlen.
    assert (files (self st') = _filenames (self st) w) as Hfiles by by rewrite Hst'.
    assert (cp_interval (self st') = cp_interval (self st)) as Hcp'
      by by rewrite Hst'.
    split; [done|]. rewrite Hcp', Hfiles. unfold _filenames at 1.
    rewrite length_fmap. split; [lia|]. right. split; [lia|]. by exists w.
  - injection Hrun as <-. cbn [self files cp_interval with_files state_with_self].
    split; [done|]. split; [lia|]. left. split; [lia|done].
Qed.

(** The condition on the root cannot be dropped.  When the root keeps
    twenty generations and enters the round with iterations 1 to 26 while
    rank 1 enters it with iterations 1 to 11, the root's window is all of
    1 to 11, and rank 1, which keeps five generations, tracks eleven
    names. *)
Example checkpoint_mixed_intervals :
  let root := {| name := "run"; cp_interval := 20; gc_interval := 5;
                 comm_rank := 0; files := []; path := Some "result" |} in
  let st := state_with_env full_state1
              {| mkstemp_suffix := "k3x9"; save_fault := None;
                 gather_out := None; bcast_in := seqZ 1 11 |} in
  let r := checkpoint fresh_weights 11 st in
  coordinate root (_filenames root (seqZ 1 26)) [_filenames run1 (seqZ 1 11)]
  = Ok (seqZ 1 11)
  ∧ r.1 = Ok tt
  ∧ files (self r.2) = _filenames run1 (seqZ 1 11)
  ∧ cp_interval (self r.2) = 5.
Proof. repeat split; by vm_compute. Qed.

(** On [full_state] the eleventh generation triggers a round, which keeps
    the five newest generations. *)
Example checkpoint_run :
  let r := checkpoint fresh_weights 11 full_state in
  r.1 = Ok tt
  ∧ files (self r.2) = ["run.0.7"; "run.0.8"; "run.0.9"; "run.0.10"; "run.0.11"]
  ∧ dom <$> fs r.2 !! "result"
    = Some (list_to_set ["run.0.7"; "run.0.8"; "run.0.9"; "run.0.10"; "run.0.11"]).
Proof. repeat split; by vm_compute. Qed.

End lifecycle.

(** ** Recovery at start-up *)

Section resume.

Implicit Types (st : state) (target : trainer) (opt : option optimizer).

Lemma _load_state (p : option string) (filename : string) target st :
  (_load p filename target st).2 = st.
Proof.
  revert st. change (preserves (λ st, st) (_load p filename target)).
  unfold _load, Os.join, Os.load_npz. solve_preserves.
Qed.

(** The end of [maybe_resume], after the round (lines 252-268). *)
Lemma maybe_resume_adopt target opt st target' opt' st' :
  (parsed ← lift (_parse_filenames (self st) (files (self st)));
   iters ← lift (unpack_iterations parsed);
   match iters with
   | i0 :: rest =>
       target'' ← _load (path (self st)) (_filename (self st) (py_max i0 rest)) target;
       match opt with
       | Some _ => mret (target'', Some {| needs_broadcast := false |})
       | None => mret (target'', None)
       end
   | [] => mret (target, opt)
   end) st = (Ok (target', opt'), st') →
  st' = st
  ∧ match files (self st) with
    | [] => target' = target ∧ opt' = opt
    | _ :: _ => opt' = (λ _, {| needs_broadcast := false |}) <$> opt
    end.
Proof.
  intros Hrun.
  apply bind_Ok in Hrun as (parsed & ? & Hparse & Hrun).
  unfold lift in Hparse. injection Hparse as Hparse <-.
  apply bind_Ok in Hrun as (iters & ? & Hiters & Hrun).
  unfold lift in Hiters. injection Hiters as Hiters <-.
  destruct (files (self st)) as [|f fl].
  - injection Hparse as <-. injection Hiters as <-.
    by injection Hrun as <- <- <-.
  - cbn [_parse_filenames] in Hparse.
    destruct (_parse_filename (self st) f) as [t|]; [|done].
    destruct (_parse_filenames (self st) fl) as [ts|]; [|done].
    injection Hparse as <-. cbn [unpack_iterations] in Hiters.
    destruct t as [[[nm r] i]|]; [|done].
    destruct (unpack_iterations ts) as [l|]; [|done].
    injection Hiters as <-.
    apply bind_Ok in Hrun as (target'' & st1 & Hload & Hrun).
    pose proof (_load_state (path (self st)) (_filename (self st) (py_max i l))
                  target st) as Hst.
    rewrite Hload in Hst. cbn [snd] in Hst. subst st1.
    destruct opt; by injection Hrun as <- <- <-.
Qed.

(** C1, as the code has it.  When [maybe_resume] returns, either the
    round left no tracked generation, and then the target and the handle
    are as they were, or it left some, and then a supplied handle is
    marked as not needing a broadcast, whichever iterations the ranks had
    written.  The handle is never marked as needing one. *)
Theorem maybe_resume_handle target opt (p : option string) st target' opt' st' :
  maybe_resume target opt p st = (Ok (target', opt'), st') →
  match files (self st') with
  | [] => target' = target ∧ opt' = opt
  | _ :: _ => opt' = (λ _, {| needs_broadcast := false |}) <$> opt
  end.
Proof.
  intros Hrun. unfold maybe_resume in Hrun.
  apply bind_Ok in Hrun as (? & ? & _ & Hrun).
  apply bind_Ok in Hrun as (? & ? & _ & Hrun).
  apply bind_Ok in Hrun as (? & ? & _ & Hrun).
  apply bind_Ok in Hrun as (? & ? & _ & Hrun).
  apply bind_Ok in Hrun as (? & ? & _ & Hrun).
  apply bind_Ok in Hrun as (? & ? & _ & Hrun).
  apply bind_Ok in Hrun as (? & ? & _ & Hrun).
  apply bind_Ok in Hrun as (? & ? & [= <- <-] & Hrun).
  by apply maybe_resume_adopt in Hrun as [-> ?].
Qed.

Lemma maybe_resume_handle_witness :
  match files (self (maybe_resume fresh_weights (Some {| needs_broadcast := true |})
                       None fallback_state).2) with
  | [] => {| out := "result"; snapshot := "three" |} = fresh_weights
          ∧ Some {| needs_broadcast := false |} = Some {| needs_broadcast := true |}
  | _ :: _ => Some {| needs_broadcast := false |}
              = (λ _, {| needs_broadcast := false |})
                  <$> Some {| needs_broadcast := true |}
  end.
Proof.
  apply (maybe_resume_handle fresh_weights (Some {| needs_broadcast := true |})
           None fallback_state).
  by vm_compute.
Defined.

(** C1, as the claim has it, fails.  Two of three ranks had written
    iteration 5, so the round falls back to iteration 3; the handle that
    came in as needing a broadcast leaves marked as not needing one. *)
Lemma maybe_resume_fallback_clears_flag :
  let r := maybe_resume fresh_weights (Some {| needs_broadcast := true |}) None
             fallback_state in
  "run.0.5" ∈ dom (default ∅ (fs fallback_state !! "result"))
  ∧ surviving run0 ["run.0.3"; "run.0.5"] [["run.1.3"; "run.1.5"]; ["run.2.3"]]
    = Ok {[3]}
  ∧ files (self r.2) = ["run.0.3"]
  ∧ r.1 = Ok ({| out := "result"; snapshot := "three" |},
              Some {| needs_broadcast := false |})
  ∧ r.1 ≠ Ok ({| out := "result"; snapshot := "three" |},
              Some {| needs_broadcast := true |}).
Proof. repeat split; by vm_compute. Qed.

Lemma sync_keeps_disk st :
  fs (_sync_file_list false st).2 = fs st.
Proof.
  rewrite sync_cases. repeat case_match; done.
Qed.

(** Recovery never deletes a file: its round runs without
    [remove_remainder], and loading only reads. *)
Lemma maybe_resume_keeps_disk target opt (p : option string) :
  preserves fs (maybe_resume target opt p).
Proof.
  pose proof sync_keeps_disk as Hsync.
  unfold maybe_resume, _load, Os.join, Os.load_npz, Os.listdir.
  solve_preserves.
Qed.

End resume.

Section agreement.

Implicit Types (me : DistCPRExtension) (st : state).

(** What [maybe_resume] tracks when it returns: nothing after the early
    return of the round, and otherwise the names, for this rank, of the
    iterations the round adopted. *)
Lemma maybe_resume_tracks (target : trainer) (opt : option optimizer)
    (p : option string) st r st' :
  maybe_resume target opt p st = (Ok r, st') →
  (comm_rank (self st) = 0 ∧ gather_out (env st) = Some [] ∧ files (self st') = [])
  ∨ ∃ w, agreed st = Some w ∧ files (self st') = _filenames (self st) w.
Proof.
  intros Hrun. destruct r as [target' opt']. unfold maybe_resume in Hrun.
  apply bind_Ok in Hrun as (? & ? & [= <- <-] & Hrun).
  apply bind_Ok in Hrun as ([] & stA & HA & Hrun).
  assert (name (self stA) = name (self st)
          ∧ cp_interval (self stA) = cp_interval (self st)
          ∧ comm_rank (self stA) = comm_rank (self st)
          ∧ env stA = env st) as (Hname & Hcp & Hrank & Henv).
  { destruct (path (self st)); [by injection HA as <-|].
    destruct p; by injection HA as <-. }
  apply bind_Ok in Hrun as (? & ? & [= <- <-] & Hrun).
  apply bind_Ok in Hrun as (local_files & stB & HB & Hrun).
  assert (stB = stA) as ->.
  { assert (preserves (λ st, st)
              (try_except
                 match path (self stA) with
                 | Some d => Os.listdir d
                 | None => raise TypeError
                 end (λ _, mret []))) as Hkeep
      by (unfold Os.listdir; solve_preserves).
    specialize (Hkeep stA). by rewrite HB in Hkeep. }
  apply bind_Ok in Hrun as (local_iters & ? & [= _ <-] & Hrun).
  apply bind_Ok in Hrun as ([] & stC & [= <-] & Hrun).
  apply bind_Ok in Hrun as ([] & st2 & Hsync & Hrun).
  apply bind_Ok in Hrun as (? & ? & [= <- <-] & Hrun).
  apply maybe_resume_adopt in Hrun as [-> _].
  rewrite sync_cases in Hsync. unfold agreed.
  cbn [self env state_with_self comm_rank with_files] in Hsync.
  rewrite Hrank, Henv in Hsync.
  case_decide as Hr.
  - destruct (gather_out (env st)) as [[|fl0 fls]|]; [| |done].
    + left. by injection Hsync as <-.
    + right. rewrite (coordinate_ext _ (self st)) in Hsync by done.
      destruct (coordinate (self st) fl0 fls) as [w|]; [|done].
      exists w. split; [done|]. rewrite rebuild_keep in Hsync.
      injection Hsync as <-. cbn. unfold _filenames, _filename. cbn.
      by rewrite Hname, Hrank.
  - right. eexists. split; [done|]. rewrite rebuild_keep in Hsync.
    injection Hsync as <-. cbn. unfold _filenames, _filename. cbn.
    by rewrite Hname, Hrank.
Qed.

End agreement.

(** ** Construction *)

Section construction.

(** A controller that was constructed keeps a positive number of
    generations, tracks nothing yet, and no method changes the two
    intervals afterwards. *)
Lemma init_intervals (nm : option string) (comm : option Z) (cp gc : Z)
    (p : option string) st st' :
  __init__ nm comm cp gc p st = (Ok tt, st') →
  0 < cp_interval (self st') ∧ 0 < gc_interval (self st')
  ∧ files (self st') = [] ∧ path (self st') = p.
Proof.
  intros Hrun. unfold __init__ in Hrun.
  apply bind_Ok in Hrun as ([] & st1 & Hdirs & Hrun).
  destruct nm as [nm'|]; [|done].
  repeat case_decide; try done.
  destruct comm as [rank|]; [|done].
  injection Hrun as <-. by cbn.
Qed.

Lemma checkpoint_cp_interval (target : trainer) (iteration : Z) :
  preserves (λ st, cp_interval (self st)) (checkpoint target iteration).
Proof.
  unfold checkpoint, _sync_file_list, rebuild, _save, _maybe_makedirs,
    Os.makedirs, Os.isdir, Os.mkstemp, Os.save_npz, Os.close, Os.remove,
    Os.join, Os.move, Mpi.gather, Mpi.bcast.
  solve_preserves.
Qed.

Lemma finalize_cp_interval : preserves (λ st, cp_interval (self st)) finalize.
Proof. unfold finalize, Os.join, Os.remove. solve_preserves. Qed.

End construction.

(** * Further properties of the code *)

(** ** More on the codec *)

Section codec_more.

Implicit Types (self : DistCPRExtension) (filename : string).

Lemma string_app_assoc (s1 s2 s3 : string) :
  (s1 +:+ s2) +:+ s3 = s1 +:+ (s2 +:+ s3).
Proof.
  induction s1 as [|c s1 IH]; [done|].
  change (String c ((s1 +:+ s2) +:+ s3) = String c (s1 +:+ (s2 +:+ s3))).
  by f_equal.
Qed.

Lemma split_app_length (sep : ascii) (s1 s2 : string) :
  length (Py.split sep (s1 +:+ String sep s2))
  = (length (Py.split sep s1) + length (Py.split sep s2))%nat.
Proof.
  induction s1 as [|c s1 IH]; simpl.
  - by rewrite Ascii.eqb_refl.
  - destruct (Ascii.eqb c sep); simpl; [by rewrite IH|].
    destruct (Py.split sep s1) as [|h t] eqn:E1; [by destruct (split_nonempty sep s1)|].
    destruct (Py.split sep (s1 +:+ String sep s2)) as [|h' t'] eqn:E2.
    + by destruct (split_nonempty sep (s1 +:+ String sep s2)).
    + simpl in *. lia.
Qed.

Lemma split_contains_length (sep : ascii) (s : string) :
  Py.contains sep s = true → (2 ≤ length (Py.split sep s))%nat.
Proof.
  induction s as [|c s IH]; simpl; [done|].
  destruct (Ascii.eqb c sep); simpl.
  - intros _. pose proof (split_nonempty sep s).
    destruct (Py.split sep s); [done|simpl; lia].
  - intros Hs. specialize (IH Hs).
    destruct (Py.split sep s); simpl in *; lia.
Qed.

(** Every field that [split] returns is free of the separator. *)
Lemma split_fields_clean (sep : ascii) (s : string) :
  Forall (λ f, Py.contains sep f = false) (Py.split sep s).
Proof.
  induction s as [|c s IH]; simpl; [by repeat constructor|].
  destruct (Ascii.eqb c sep) eqn:Hc; [by constructor|].
  destruct (Py.split sep s) as [|h t] eqn:E; [by destruct (split_nonempty sep s)|].
  apply Forall_cons in IH as [Hh Ht]. constructor; [|done].
  simpl. by rewrite Hc.
Qed.

Lemma parse_filename_field_count self filename :
  length (Py.split "." filename) ≠ 3%nat → _parse_filename self filename = Ok None.
Proof.
  intros Hlen. apply parse_filename_foreign. intros rank iter Heq.
  by rewrite Heq in Hlen.
Qed.

Lemma filename_field_count self (iteration : Z) :
  length (Py.split "." (_filename self iteration))
  = (length (Py.split "." (name self)) + 2)%nat.
Proof.
  unfold _filename.
  change (name self +:+ "." +:+ ?r) with (name self +:+ String "." r).
  rewrite split_app_length.
  change (?a +:+ "." +:+ ?r) with (a +:+ String "." r).
  rewrite (split_app "." (Py.format_d (comm_rank self))) by apply format_d_no_dot.
  rewrite (split_no_sep "." (Py.format_d iteration)) by apply format_d_no_dot.
  simpl. lia.
Qed.

(** Within one run, whatever its name, two generations have the same file
    name only if they have the same rank and the same iteration: ranks that
    share a directory never write each other's files. *)
Theorem filename_injective self self' (i i' : Z) :
  name self = name self' →
  _filename self i = _filename self' i' →
  comm_rank self = comm_rank self' ∧ i = i'.
Proof.
  intros Hname Heq. unfold _filename in Heq. rewrite Hname in Heq.
  apply (inj (String.append (name self'))) in Heq.
  apply (inj (String.append ".")) in Heq.
  apply (f_equal (Py.split ".")) in Heq.
  change (?a +:+ "." +:+ ?r) with (a +:+ String "." r) in Heq.
  rewrite !split_app in Heq by apply format_d_no_dot.
  rewrite !split_no_sep in Heq by apply format_d_no_dot.
  injection Heq as Hr Hi. unfold Py.format_d in *.
  split; by apply (inj pretty).
Qed.

Lemma filename_injective_witness :
  comm_rank run0 = comm_rank run0 ∧ (25 : Z) = 25.
Proof. by apply (filename_injective run0 run0 25 25). Defined.

(** A controller whose run name contains the separator does not recognise
    the names it writes itself: they have more than three fields, and the
    decoder answers [None]. *)
Theorem parse_filename_dotted_name self (iteration : Z) :
  Py.contains "." (name self) = true →
  _parse_filename self (_filename self iteration) = Ok None.
Proof.
  intros Hdot. apply parse_filename_field_count.
  rewrite filename_field_count.
  pose proof (split_contains_length "." (name self) Hdot). lia.
Qed.

Lemma parse_filename_dotted_name_witness :
  _parse_filename dotted_run (_filename dotted_run 5) = Ok None.
Proof. by apply (parse_filename_dotted_name dotted_run 5). Defined.

Lemma decode_encoded self self' (iteration : Z) :
  name self' = name self →
  Py.contains "." (name self) = false →
  _parse_filename self (_filename self' iteration)
  = Ok (Some (name self, comm_rank self', iteration)).
Proof.
  intros Hname Hdot. unfold _parse_filename.
  rewrite split_filename by by rewrite Hname.
  rewrite Hname, String.eqb_refl. simpl. by rewrite !int_format_d.
Qed.

(** Any rank of a run decodes the names any other rank of the run writes,
    for every rank and iteration, negative ones included. *)
Theorem parse_filename_encoded self self' (iteration : Z) :
  name self' = name self →
  Py.contains "." (name self) = false →
  _parse_filename self (_filename self' iteration)
  = Ok (Some (name self, comm_rank self', iteration)).
Proof. apply decode_encoded. Qed.

Lemma parse_filename_encoded_witness :
  _parse_filename run0 (_filename run1 (-3)) = Ok (Some ("run", 1, -3)).
Proof. by apply (parse_filename_encoded run0 run1 (-3)). Defined.

(** The temporary file of a write is never taken for a checkpoint: whatever
    the run name and the random characters, its name decodes to [None]. *)
Theorem parse_filename_tmp self (iteration : Z) (suffix : string) :
  _parse_filename self (("tmp-" +:+ _filename self iteration) +:+ suffix) = Ok None.
Proof.
  apply parse_filename_foreign. intros rank iter Hsplit.
  pose proof (split_fields_clean "."
                (("tmp-" +:+ _filename self iteration) +:+ suffix)) as Hclean.
  rewrite Hsplit in Hclean. apply Forall_cons in Hclean as [Hname _].
  assert (("tmp-" +:+ _filename self iteration) +:+ suffix
          = ("tmp-" +:+ name self)
            +:+ String "." ((Py.format_d (comm_rank self) +:+ "."
                             +:+ Py.format_d iteration) +:+ suffix)) as Hshape.
  { unfold _filename. by rewrite !string_app_assoc. }
  rewrite Hshape, split_app in Hsplit by done.
  injection Hsplit as Heq _. apply (f_equal String.length) in Heq.
  rewrite string_length_app in Heq. simpl in Heq. lia.
Qed.

End codec_more.

(** ** More on the quorum round *)

Section quorum_more.

Implicit Types (self : DistCPRExtension) (st : state) (fl : list string).

Lemma iteration_set_nil self : iteration_set self [] = Ok ∅.
Proof. done. Qed.

Lemma window_subset (cp : Z) (s : gset Z) (x : Z) : x ∈ window cp s → x ∈ s.
Proof.
  unfold window, slice_from. intros Hx.
  eapply elem_of_sublist in Hx; [|apply sublist_drop].
  by apply (sorted_elements s).
Qed.

Lemma window_empty (cp : Z) : window cp ∅ = [].
Proof.
  unfold window, slice_from. rewrite elements_empty.
  change (merge_sort Z.le []) with (@nil Z). apply drop_nil.
Qed.

(** What is left after the loop is inside every rank's set. *)
Lemma intersect_rest_inside self (iters0 : gset Z) (rest : list (list string))
    (s : gset Z) :
  intersect_rest self iters0 rest = Ok s →
  s ⊆ iters0
  ∧ ∀ fl, fl ∈ rest → ∃ sf, iteration_set self fl = Ok sf ∧ s ⊆ sf.
Proof.
  revert iters0. induction rest as [|fl rest IH]; intros iters0; cbn [intersect_rest].
  - intros [= <-]. split; [done|]. intros fl Hfl. by apply elem_of_nil in Hfl.
  - destruct (iteration_set self fl) as [sf|] eqn:Hsf; [|done].
    intros Hrest. apply IH in Hrest as [Hsub Hall]. split; [set_solver|].
    intros fl' Hfl'. apply elem_of_cons in Hfl' as [->|Hfl']; [|by apply Hall].
    exists sf. split; [done|set_solver].
Qed.

(** Empty-intersection fallback.  When some rank reports no generation at
    all, the coordinator's list is empty, whatever the other ranks hold and
    whatever [cp_interval] is. *)
Theorem coordinate_empty_rank self (first : list string) (rest : list (list string))
    (w : list Z) :
  coordinate self first rest = Ok w →
  [] ∈ first :: rest →
  w = [].
Proof.
  unfold coordinate, surviving. intros Hrun Hempty.
  destruct (iteration_set self first) as [s0|] eqn:Hfirst; [|done].
  destruct (intersect_rest self s0 rest) as [s|] eqn:Hrest; [|done].
  injection Hrun as <-. apply intersect_rest_inside in Hrest as [Hsub Hall].
  assert (s = ∅) as ->; [|apply window_empty].
  apply elem_of_cons in Hempty as [<-|Hempty].
  - rewrite iteration_set_nil in Hfirst. injection Hfirst as <-. set_solver.
  - destruct (Hall [] Hempty) as (sf & Hsf & Hs).
    rewrite iteration_set_nil in Hsf. injection Hsf as <-. set_solver.
Qed.

Lemma coordinate_empty_rank_witness :
  coordinate run0 ["run.0.5"; "run.0.10"] [[]; ["run.2.5"]] = Ok []
  ∧ @nil Z = [].
Proof.
  split; [by vm_compute|].
  apply (coordinate_empty_rank run0 ["run.0.5"; "run.0.10"] [[]; ["run.2.5"]] []).
  - by vm_compute.
  - apply elem_of_cons. right. apply elem_of_cons. by left.
Defined.

(** A list none of whose names makes the decoder raise [ValueError]. *)
Lemma iteration_set_no_value_error self fl :
  (∀ f, f ∈ fl → ∃ t, _parse_filename self f = Ok t) →
  (∃ s, iteration_set self fl = Ok s)
  ∨ iteration_set self fl = Raise TypeError.
Proof.
  unfold iteration_set. induction fl as [|f fl IH]; intros Hok.
  - left. by eexists.
  - destruct (Hok f) as [t Ht]; [by left|].
    cbn [_parse_filenames]. rewrite Ht.
    destruct IH as [[s Hs]|Hraise]; [intros; apply Hok; by right|..].
    + destruct (_parse_filenames self fl) as [parsed|]; [|done].
      cbn [unpack_iterations].
      destruct t as [[[nm r] i]|]; [|by right].
      destruct (unpack_iterations parsed); [|done]. left. by eexists.
    + destruct (_parse_filenames self fl) as [parsed|]; [|by right].
      cbn [unpack_iterations].
      destruct t as [[[nm r] i]|]; [|by right].
      destruct (unpack_iterations parsed); [done|]. by right.
Qed.

Lemma iteration_set_foreign self fl (f : string) :
  (∀ f', f' ∈ fl → ∃ t, _parse_filename self f' = Ok t) →
  f ∈ fl → _parse_filename self f = Ok None →
  iteration_set self fl = Raise TypeError.
Proof.
  unfold iteration_set. induction fl as [|f0 fl IH]; intros Hok Hin Hnone.
  - by apply elem_of_nil in Hin.
  - destruct (Hok f0) as [t Ht]; [by left|].
    cbn [_parse_filenames]. rewrite Ht.
    destruct (iteration_set_no_value_error self fl) as [[s Hs]|Hraise];
      [intros; apply Hok; by right|..]; unfold iteration_set in *.
    + destruct (_parse_filenames self fl) as [parsed|] eqn:Hp; [|done].
      cbn [unpack_iterations].
      destruct t as [[[nm r] i]|]; [|done].
      apply elem_of_cons in Hin as [->|Hin]; [congruence|].
      specialize (IH (λ f' Hf', Hok f' (proj2 (elem_of_cons _ _ _) (or_intror Hf')))
                    Hin Hnone).
      by destruct (unpack_iterations parsed).
    + destruct (_parse_filenames self fl) as [parsed|] eqn:Hp; [|done].
      cbn [unpack_iterations].
      destruct t as [[[nm r] i]|]; [|done].
      by destruct (unpack_iterations parsed).
Qed.

(** Unlike the start-up scan, the coordinator does not skip a name it does
    not recognise.  If no gathered name makes the decoder raise
    [ValueError] and some gathered name decodes to [None], the round on the
    root raises [TypeError] and changes nothing. *)
Theorem sync_foreign_name_raises (b : bool) st (first : list string)
    (rest : list (list string)) (fl : list string) (f : string) :
  comm_rank (self st) = 0 →
  gather_out (env st) = Some (first :: rest) →
  (∀ fl', fl' ∈ first :: rest → ∀ f', f' ∈ fl' →
     ∃ t, _parse_filename (self st) f' = Ok t) →
  fl ∈ first :: rest → f ∈ fl → _parse_filename (self st) f = Ok None →
  _sync_file_list b st = (Raise TypeError, st).
Proof.
  intros Hrank Hgather Hok Hfl Hf Hnone.
  rewrite sync_cases, decide_True, Hgather by done.
  assert (coordinate (self st) first rest = Raise TypeError) as ->; [|done].
  unfold coordinate, surviving.
  destruct (iteration_set_no_value_error (self st) first) as [[s0 Hs0]| ->];
    [apply Hok; by left| |done].
  rewrite Hs0. apply elem_of_cons in Hfl as [->|Hfl].
  { rewrite iteration_set_foreign with (f := f) in Hs0; [done|..|done|done].
    apply Hok. by left. }
  assert (∀ fl', fl' ∈ rest → ∀ f', f' ∈ fl' →
            ∃ t, _parse_filename (self st) f' = Ok t) as Hok'.
  { intros fl' Hfl'. apply Hok. by right. }
  clear Hok Hs0 Hgather. revert s0.
  induction rest as [|fl0 rest IH]; intros s0; [by apply elem_of_nil in Hfl|].
  cbn [intersect_rest].
  destruct (iteration_set_no_value_error (self st) fl0) as [[s1 Hs1]| ->];
    [apply Hok'; by left| |done].
  rewrite Hs1. apply elem_of_cons in Hfl as [->|Hfl].
  - rewrite iteration_set_foreign with (f := f) in Hs1; [done|..|done|done].
    apply Hok'. by left.
  - apply IH; [done|]. intros fl' Hfl'. apply Hok'. by right.
Qed.

Lemma sync_foreign_name_raises_witness :
  _sync_file_list false foreign_gather_state = (Raise TypeError, foreign_gather_state).
Proof.
  apply (sync_foreign_name_raises false foreign_gather_state
           ["run.0.5"] [["run.1.5"; "notes.txt"]] ["run.1.5"; "notes.txt"] "notes.txt").
  - reflexivity.
  - reflexivity.
  - intros fl' Hfl' f' Hf'.
    repeat (apply elem_of_cons in Hfl' as [->|Hfl']);
      [..|by apply elem_of_nil in Hfl'];
      repeat (apply elem_of_cons in Hf' as [->|Hf']);
      try (by apply elem_of_nil in Hf'); eexists; by vm_compute.
  - apply elem_of_cons. right. apply elem_of_cons. by left.
  - apply elem_of_cons. right. apply elem_of_cons. by left.
  - by vm_compute.
Defined.

End quorum_more.

(** ** A round over the whole job *)

Section job.

Implicit Types (st : state) (job : list state) (w : list Z).

Lemma rebuild_outcome (b : bool) w st :
  ∃ st', rebuild b w st = (Ok tt, st')
    ∧ self st' = with_files (self st) (_filenames (self st) w)
    ∧ ∀ q, (q.2 ∈ _filenames (self st) w ∨ q.2 ∉ files (self st)
            ∨ path (self st) ≠ Some q.1) →
           lookup_file (fs st') q = lookup_file (fs st) q.
Proof.
  destruct b.
  - destruct (rebuild_remove w st) as (st' & Hrun & Hself & _ & _ & Hfs).
    exists st'. split; [done|]. split; [done|].
    intros q Hq. rewrite Hfs. rewrite decide_False; [done|]. tauto.
  - rewrite rebuild_keep. eexists. split; [done|]. by split.
Qed.

Lemma encoded_name_decodes (me me' : DistCPRExtension) (its : list Z) (f : string) :
  name me' = name me →
  Py.contains "." (name me) = false →
  f ∈ _filenames me' its →
  ∃ i, i ∈ its ∧ f = _filename me' i
       ∧ _parse_filename me f = Ok (Some (name me, comm_rank me', i)).
Proof.
  intros Hname Hdot Hf. unfold _filenames in Hf.
  apply list_elem_of_fmap in Hf as (i & -> & Hi).
  exists i. split; [done|]. split; [done|]. by apply decode_encoded.
Qed.

(** The outcome of a round in which every rank takes part. *)
Lemma job_round_outcome (b : bool) job (nm : string) :
  job ≠ [] →
  (∀ k st, job !! k = Some st → comm_rank (self st) = Z.of_nat k) →
  (∀ st, st ∈ job → name (self st) = nm) →
  Py.contains "." nm = false →
  (∀ st, st ∈ job → ∃ its, files (self st) = _filenames (self st) its) →
  ∃ w outs, job_round b job = Some outs
    ∧ length outs = length job
    ∧ (∀ k st out, job !! k = Some st → outs !! k = Some out →
         out.1 = Ok tt
         ∧ files (self out.2) = _filenames (self st) w
         ∧ ∀ q, (q.2 ∈ _filenames (self st) w ∨ q.2 ∉ files (self st)
                 ∨ path (self st) ≠ Some q.1) →
                lookup_file (fs out.2) q = lookup_file (fs st) q)
    ∧ (∀ i st, i ∈ w → st ∈ job → _filename (self st) i ∈ files (self st)).
Proof.
  intros Hne Hnum Hname Hdot Htracked.
  destruct job as [|root others]; [done|]. clear Hne.
  assert (name (self root) = nm) as Hroot by (apply Hname; by left).
  assert (∀ fl, fl ∈ (λ st, files (self st)) <$> root :: others → ∀ f, f ∈ fl →
            ∃ t, _parse_filename (self root) f = Ok (Some t)) as Hwf.
  { intros fl Hfl f Hf. apply list_elem_of_fmap in Hfl as (st & -> & Hst).
    destruct (Htracked st Hst) as [its Hits]. rewrite Hits in Hf.
    eapply encoded_name_decodes in Hf as (i & _ & _ & Hdec);
      [by eexists| |by rewrite Hroot]. by rewrite Hroot, (Hname st). }
  rewrite fmap_cons in Hwf.
  destruct (iteration_set_spec (self root) (files (self root)))
    as (s0 & Hs0 & Hin0); [apply Hwf; by left|].
  destruct (intersect_rest_spec (self root) s0 ((λ st, files (self st)) <$> others))
    as (s & Hs & Hin); [intros fl Hfl; apply Hwf; by right|].
  set (w := window (cp_interval (self root)) s).
  assert (coordinate (self root) (files (self root))
            ((λ st, files (self st)) <$> others) = Ok w) as Hcoord.
  { unfold coordinate, surviving. by rewrite Hs0, Hs. }
  exists w. eexists. split; [unfold job_round; by rewrite Hcoord|].
  split; [by rewrite length_fmap|]. split.
  - intros k st out Hk Hout. rewrite list_lookup_fmap, Hk in Hout.
    injection Hout as <-. rewrite sync_cases.
    cbn [self env state_with_env job_env gather_out bcast_in].
    pose proof (Hnum k st Hk) as Hrank.
    destruct (rebuild_outcome b w
                (state_with_env st (job_env (root :: others) w st)))
      as (st' & Hreb & Hself & Hfs).
    case_decide as Hzero.
    + assert (k = 0%nat) as -> by lia. injection Hk as <-.
      rewrite fmap_cons, Hcoord, Hreb.
      cbn [fst snd]. rewrite Hself. by cbn.
    + rewrite Hreb. cbn [fst snd]. rewrite Hself. by cbn.
  - intros i st Hi Hst. apply window_subset in Hi.
    apply Hin in Hi as [Hi0 Hirest].
    assert (∃ f nm' r, f ∈ files (self st)
              ∧ _parse_filename (self root) f = Ok (Some (nm', r, i)))
      as (f & nm' & r & Hf & Hdec).
    { pose proof Hst as Hst'.
      apply elem_of_cons in Hst' as [->|Hst']; [by apply Hin0|].
      apply Hirest, list_elem_of_fmap. eauto. }
    destruct (Htracked st Hst) as [its Hits].
    rewrite Hits in Hf.
    eapply encoded_name_decodes in Hf as (j & Hj & -> & Hdec');
      [| |by rewrite Hroot]; [|by rewrite Hroot, (Hname st)].
    rewrite Hdec in Hdec'. injection Hdec' as _ _ ->.
    rewrite Hits. unfold _filenames. apply list_elem_of_fmap. eauto.
Qed.

(** Agreement.  When every rank of a job, numbered in order and tracking
    names it encoded itself under a run name without separator, takes part
    in a round, every rank returns normally and tracks the names of one
    and the same list of iterations, and every iteration of that list was
    tracked by every rank before the round. *)
Theorem job_round_agreement (b : bool) job (nm : string) :
  job ≠ [] →
  (∀ k st, job !! k = Some st → comm_rank (self st) = Z.of_nat k) →
  (∀ st, st ∈ job → name (self st) = nm) →
  Py.contains "." nm = false →
  (∀ st, st ∈ job → ∃ its, files (self st) = _filenames (self st) its) →
  ∃ w outs, job_round b job = Some outs
    ∧ length outs = length job
    ∧ (∀ k st out, job !! k = Some st → outs !! k = Some out →
         out.1 = Ok tt ∧ files (self out.2) = _filenames (self st) w)
    ∧ (∀ i st, i ∈ w → st ∈ job → _filename (self st) i ∈ files (self st)).
Proof.
  intros Hne Hnum Hname Hdot Htracked.
  destruct (job_round_outcome b job nm) as (w & outs & Hrun & Hlen & Hout & Hquorum);
    try done.
  exists w, outs. repeat split; try done; by edestruct Hout as (? & ? & _).
Qed.

(** Garbage collection is safe.  In such a round with [remove_remainder],
    no rank loses the file of an iteration the round adopted, nor a file it
    was not tracking. *)
Theorem job_round_gc_safe job (nm : string) :
  job ≠ [] →
  (∀ k st, job !! k = Some st → comm_rank (self st) = Z.of_nat k) →
  (∀ st, st ∈ job → name (self st) = nm) →
  Py.contains "." nm = false →
  (∀ st, st ∈ job → ∃ its, files (self st) = _filenames (self st) its) →
  ∃ w outs, job_round true job = Some outs
    ∧ ∀ k st out, job !! k = Some st → outs !! k = Some out →
        files (self out.2) = _filenames (self st) w
        ∧ (∀ (d : string) i, i ∈ w →
             lookup_file (fs out.2) (d, _filename (self st) i)
             = lookup_file (fs st) (d, _filename (self st) i))
        ∧ (∀ (d f : string), f ∉ files (self st) →
             lookup_file (fs out.2) (d, f) = lookup_file (fs st) (d, f)).
Proof.
  intros Hne Hnum Hname Hdot Htracked.
  destruct (job_round_outcome true job nm)
    as (w & outs & Hrun & Hlen & Hout & Hquorum); try done.
  exists w, outs. split; [done|]. intros k st out Hk Hko.
  destruct (Hout k st out Hk Hko) as (_ & Hfiles & Hfs).
  split; [done|]. split.
  - intros d i Hi. apply Hfs. left. cbn [snd].
    unfold _filenames. apply list_elem_of_fmap. eauto.
  - intros d f Hf. apply Hfs. right. by left.
Qed.

Local Ltac sample_job_hyps :=
  first
    [ done
    | by intros [|[|[|k]]] st; cbn; intros [= <-]
    | intros st Hst;
      repeat (apply elem_of_cons in Hst as [->|Hst]);
      [..|by apply elem_of_nil in Hst];
      first [ reflexivity
            | by exists [3; 5]
            | by exists [3] ] ].

Lemma job_round_agreement_witness :
  ∃ w outs, job_round false sample_job = Some outs
    ∧ length outs = length sample_job
    ∧ (∀ k st out, sample_job !! k = Some st → outs !! k = Some out →
         out.1 = Ok tt ∧ files (self out.2) = _filenames (self st) w)
    ∧ (∀ i st, i ∈ w → st ∈ sample_job →
         _filename (self st) i ∈ files (self st)).
Proof. apply (job_round_agreement false sample_job "run"); sample_job_hyps. Defined.

Lemma job_round_gc_safe_witness :
  ∃ w outs, job_round true sample_job = Some outs
    ∧ ∀ k st out, sample_job !! k = Some st → outs !! k = Some out →
        files (self out.2) = _filenames (self st) w
        ∧ (∀ (d : string) i, i ∈ w →
             lookup_file (fs out.2) (d, _filename (self st) i)
             = lookup_file (fs st) (d, _filename (self st) i))
        ∧ (∀ (d f : string), f ∉ files (self st) →
             lookup_file (fs out.2) (d, f) = lookup_file (fs st) (d, f)).
Proof. apply (job_round_gc_safe sample_job "run"); sample_job_hyps. Defined.

(** On the sample job every rank ends the pruning round tracking
    iteration 3 only, and the two ranks that held iteration 5 have deleted
    its file. *)
Example job_round_run :
  (λ out : result unit * state,
     (out.1, files (self out.2), dom <$> fs out.2 !! "result"))
    <$> default [] (job_round true sample_job)
  = [(Ok tt, ["run.0.3"], Some {[ "run.0.3" ]});
     (Ok tt, ["run.1.3"], Some {[ "run.1.3" ]});
     (Ok tt, ["run.2.3"], Some {[ "run.2.3" ]})].
Proof. by vm_compute. Qed.

(** What the collectives of a job deliver is what [checkpoint] relies on:
    the root gathers one list per rank, so never an empty sequence, and a
    rank that keeps as many generations as the root receives the window
    the root computed for that many. *)
Lemma job_env_delivers job (root : state) (others : list state) w st :
  job = root :: others →
  coordinate (self root) (files (self root)) ((λ st0, files (self st0)) <$> others)
  = Ok w →
  cp_interval (self root) = cp_interval (self st) →
  let st_in := state_with_env st (job_env job w st) in
  (comm_rank (self st_in) = 0 → gather_out (env st_in) ≠ Some [])
  ∧ (comm_rank (self st_in) ≠ 0 →
     ∃ (root' : DistCPRExtension) (fl0 : list string) (fls : list (list string)),
       cp_interval root' = cp_interval (self st_in)
       ∧ coordinate root' fl0 fls = Ok (bcast_in (env st_in))).
Proof.
  intros -> Hw Hcp. split.
  - intros Hrank. cbn in *. by rewrite decide_True.
  - intros _. by exists (self root), (files (self root)),
                 ((λ st0, files (self st0)) <$> others).
Qed.

(** The round of the eleventh checkpoint, over the job of [full_state] and
    [full_state1]: the environment of [full_state1] is the one this job
    delivers to rank 1. *)
Example full_job_run :
  coordinate (self full_state) (_filenames run0 (seqZ 1 11))
    [_filenames run1 (seqZ 1 11)] = Ok [7; 8; 9; 10; 11]
  ∧ state_with_env full_state1 (job_env full_job [7; 8; 9; 10; 11] full_state1)
    = full_state1
  ∧ gather_out (job_env full_job [7; 8; 9; 10; 11] full_state)
    = gather_out (env full_state).
Proof. repeat split; by vm_compute. Qed.

(** Rank 1 in the round of the eleventh checkpoint: the hypotheses hold
    because its environment is the one the job delivers. *)
Lemma checkpoint_bounds_tracked_witness :
  let st := state_with_env full_state1
              (job_env full_job [7; 8; 9; 10; 11] full_state1) in
  let st' := (checkpoint fresh_weights 11 st).2 in
  files (self st') = ["run.1.7"; "run.1.8"; "run.1.9"; "run.1.10"; "run.1.11"]
  ∧ cp_interval (self st') = cp_interval (self st)
  ∧ Z.of_nat (length (files (self st'))) ≤ cp_interval (self st') + 5
  ∧ ((Z.of_nat (length (files (self st) ++ [_filename (self st) 11]))
      ≤ cp_interval (self st) + 5
      ∧ files (self st') = files (self st) ++ [_filename (self st) 11])
     ∨ (cp_interval (self st) + 5
        < Z.of_nat (length (files (self st) ++ [_filename (self st) 11]))
        ∧ ∃ w, agreed st = Some w
               ∧ Z.of_nat (length w) ≤ cp_interval (self st)
               ∧ files (self st') = _filenames (self st) w)).
Proof.
  intros st st'. split; [by vm_compute|].
  destruct (job_env_delivers full_job _ _ [7; 8; 9; 10; 11] full_state1 eq_refl)
    as [Hgather Hbcast]; [by vm_compute|reflexivity|].
  apply (checkpoint_bounds_tracked fresh_weights 11 st).
  - simpl. lia.
  - exact Hgather.
  - exact Hbcast.
  - by vm_compute.
Defined.

End job.

(** ** Writing, reading back and constructing *)

Section write_more.

Implicit Types (st : state) (f : filesystem) (q : string * string)
  (target : trainer).

Local Ltac dirs :=
  repeat first [apply store_file_dir | apply drop_file_dir]; done.

Local Ltac look :=
  repeat first [rewrite lookup_drop_file | rewrite lookup_store_file by dirs];
  repeat case_decide; simplify_eq; try done; try congruence; try naive_solver.

(** The result of [_save] when the temporary name is free. *)
Lemma save_result (d filename : string) target st :
  lookup_file (fs st) (d, ("tmp-" +:+ filename) +:+ mkstemp_suffix (env st)) = None →
  ∃ st', _save (Some d) filename target st
         = (match save_fault (env st) with
            | Some _ => Raise IOError
            | None => Ok tt
            end, st')
    ∧ self st' = self st ∧ env st' = env st ∧ open_fds st' = open_fds st
    ∧ is_Some (fs st' !! d)
    ∧ ∀ q, lookup_file (fs st') q
           = if decide (q = (d, filename) ∧ save_fault (env st) = None)
             then Some (snapshot target) else lookup_file (fs st) q.
Proof.
  intros Htmp.
  pose proof (_save_self (Some d) filename target st) as Hself.
  pose proof (_save_env (Some d) filename target st) as Henv.
  revert Hself Henv. unfold _save. rewrite bind_eq.
  destruct (_maybe_makedirs_run d st)
    as (st0 & tr0 & -> & Hdir0 & Hfs0 & Hfds0 & Henv0 & _ & _).
  cbv zeta beta. rewrite bind_eq.
  rewrite mkstemp_run; [|done|by rewrite Hfs0, Henv0].
  rewrite Henv0. cbv beta iota.
  set (tmp := (d, ("tmp-" +:+ filename) +:+ mkstemp_suffix (env st))) in *.
  assert (Hfresh : fresh (open_fds st0) ∉ open_fds st0) by apply is_fresh.
  set (fd := fresh (open_fds st0)) in *.
  assert (Htmp0 : lookup_file (fs st0) tmp = None) by by rewrite Hfs0.
  assert (Hne : tmp ≠ (d, filename)).
  { intros [= Heq]. by apply tmp_name_differs in Heq. }
  rewrite bind_eq. unfold try_except.
  rewrite save_npz_run by (by apply store_file_dir).
  cbn [env state_with_fs state_with_fds]. rewrite Henv0.
  destruct (save_fault (env st)) as [k|].
  - rewrite bind_eq, close_run by (cbn; set_solver).
    rewrite bind_eq.
    erewrite remove_run
      by (cbn; apply lookup_store_file_same; by apply store_file_dir).
    cbn [raise fst snd self env fs open_fds state_with_fs state_with_fds].
    intros Hself Henv. eexists. split; [done|].
    cbn [self env fs open_fds state_with_fs state_with_fds].
    split; [done|]. split; [done|]. split; [rewrite <-Hfds0; set_solver|].
    split; [dirs|]. intros q. rewrite <-Hfs0. look.
  - rewrite bind_eq, close_run by (cbn; set_solver).
    rewrite bind_eq. cbn [Os.join mret M_ret].
    erewrite move_run;
      [|cbn; apply lookup_store_file_same; by apply store_file_dir
       |cbn; by do 2 apply store_file_dir].
    cbn [fst snd self env fs open_fds state_with_fs state_with_fds].
    intros Hself Henv. eexists. split; [done|].
    cbn [self env fs open_fds state_with_fs state_with_fds].
    split; [done|]. split; [done|]. split; [rewrite <-Hfds0; set_solver|].
    split; [dirs|]. intros q. rewrite <-Hfs0. look.
Qed.

Lemma load_run (d filename : string) target st (bytes : string) :
  lookup_file (fs st) (d, filename) = Some bytes →
  _load (Some d) filename target st
  = (Ok {| out := out target; snapshot := bytes |}, st).
Proof.
  intros Hfile. unfold _load, Os.join. rewrite bind_eq. cbn [mret M_ret].
  unfold Os.load_npz. rewrite bind_eq. cbn [get]. by rewrite Hfile.
Qed.

(** Whenever [_save] returns normally, [_load] of the same name from the
    same directory fills its target with exactly the saved serialisation. *)
Theorem save_load_roundtrip (d filename : string) target (blank : trainer) st st' :
  _save (Some d) filename target st = (Ok tt, st') →
  _load (Some d) filename blank st'
  = (Ok {| out := out blank; snapshot := snapshot target |}, st').
Proof.
  intros Hsave.
  destruct (lookup_file (fs st)
              (d, ("tmp-" +:+ filename) +:+ mkstemp_suffix (env st)))
    as [bytes|] eqn:Htmp.
  { by rewrite (save_tmp_taken _ _ _ _ _ Htmp) in Hsave. }
  destruct (save_result d filename target st Htmp)
    as (st1 & Hrun & _ & _ & _ & _ & Hfs).
  rewrite Hsave in Hrun. destruct (save_fault (env st)); [done|].
  injection Hrun as <-. apply load_run. rewrite Hfs. by rewrite decide_True.
Qed.

Lemma save_load_roundtrip_witness :
  let st' := (_save (Some "result") "run.0.9" fresh_weights
                (state_with_self stray_state run0)).2 in
  _load (Some "result") "run.0.9" {| out := "elsewhere"; snapshot := "blank" |} st'
  = (Ok {| out := "elsewhere"; snapshot := "weights" |}, st').
Proof.
  apply (save_load_roundtrip "result" "run.0.9" fresh_weights
           {| out := "elsewhere"; snapshot := "blank" |}
           (state_with_self stray_state run0)).
  by vm_compute.
Defined.

(** [_maybe_makedirs(None)] raises [TypeError] and changes nothing.  When
    [_maybe_makedirs] returns normally on a path, the directory exists
    afterwards, every file, the controller and the open descriptors are as
    before, a directory that was there already is left as it was, and a
    second call returns normally and changes nothing. *)
Theorem maybe_makedirs_idempotent (d : string) st st' :
  _maybe_makedirs (Some d) st = (Ok tt, st') →
  is_Some (fs st' !! d)
  ∧ (∀ q, lookup_file (fs st') q = lookup_file (fs st) q)
  ∧ self st' = self st ∧ open_fds st' = open_fds st
  ∧ (is_Some (fs st !! d) → st' = st)
  ∧ _maybe_makedirs (Some d) st' = (Ok tt, st')
  ∧ _maybe_makedirs None st = (Raise TypeError, st).
Proof.
  intros Hrun.
  destruct (_maybe_makedirs_run d st) as (st0 & tr & Hrun0 & Hdir & Hfs & Hfds & _).
  pose proof (_maybe_makedirs_self (Some d) st) as Hself.
  rewrite Hrun in Hrun0, Hself. injection Hrun0 as <-.
  split; [done|]. split; [done|]. split; [done|]. split; [done|].
  split; [|split; [|done]].
  - intros Hthere. rewrite _maybe_makedirs_exists in Hrun by done.
    by injection Hrun.
  - by apply _maybe_makedirs_exists.
Qed.

Lemma maybe_makedirs_idempotent_witness :
  let st' := (_maybe_makedirs (Some "logs") stray_state).2 in
  fs st' !! "logs" = Some ∅
  ∧ is_Some (fs st' !! "logs")
  ∧ (∀ q, lookup_file (fs st') q = lookup_file (fs stray_state) q)
  ∧ self st' = self stray_state ∧ open_fds st' = open_fds stray_state
  ∧ (is_Some (fs stray_state !! "logs") → st' = stray_state)
  ∧ _maybe_makedirs (Some "logs") st' = (Ok tt, st')
  ∧ _maybe_makedirs None stray_state = (Raise TypeError, stray_state).
Proof.
  split; [by vm_compute|].
  apply (maybe_makedirs_idempotent "logs" stray_state). by vm_compute.
Defined.

(** A checkpoint whose serialisation fails raises the failure and leaves
    the controller, the open descriptors and every file as they were: the
    tracked list only ever names files that were written completely. *)
Theorem checkpoint_failed_write target (iteration : Z) st (d : string) (k : nat) :
  path (self st) = Some d →
  lookup_file (fs st)
    (d, ("tmp-" +:+ _filename (self st) iteration) +:+ mkstemp_suffix (env st))
  = None →
  save_fault (env st) = Some k →
  ∃ st', checkpoint target iteration st = (Raise IOError, st')
    ∧ self st' = self st ∧ open_fds st' = open_fds st
    ∧ ∀ q, lookup_file (fs st') q = lookup_file (fs st) q.
Proof.
  intros Hpath Htmp Hfault. unfold checkpoint. rewrite bind_eq. cbn [get].
  rewrite Hpath, bind_eq.
  destruct (save_result d (_filename (self st) iteration) target st Htmp)
    as (st' & -> & Hself & _ & Hfds & _ & Hfs).
  rewrite Hfault in *. exists st'. repeat split; try done.
  intros q. rewrite Hfs. by rewrite decide_False by naive_solver.
Qed.

Lemma checkpoint_failed_write_witness :
  ∃ st', checkpoint fresh_weights 9 faulty_state = (Raise IOError, st')
    ∧ self st' = self faulty_state ∧ open_fds st' = open_fds faulty_state
    ∧ ∀ q, lookup_file (fs st') q = lookup_file (fs faulty_state) q.
Proof.
  apply (checkpoint_failed_write fresh_weights 9 faulty_state "result" 3);
    by vm_compute.
Defined.

(** A checkpoint that writes and triggers no round. *)
Lemma checkpoint_no_round target (iteration : Z) st (d : string) :
  path (self st) = Some d →
  lookup_file (fs st)
    (d, ("tmp-" +:+ _filename (self st) iteration) +:+ mkstemp_suffix (env st))
  = None →
  save_fault (env st) = None →
  Z.of_nat (length (files (self st))) + 1 - cp_interval (self st) ≤ 5 →
  ∃ st', checkpoint target iteration st = (Ok tt, st')
    ∧ self st' = with_files (self st)
                   (files (self st) ++ [_filename (self st) iteration])
    ∧ open_fds st' = open_fds st
    ∧ ∀ q, lookup_file (fs st') q
           = if decide (q = (d, _filename (self st) iteration))
             then Some (snapshot target) else lookup_file (fs st) q.
Proof.
  intros Hpath Htmp Hfault Hlen. unfold checkpoint. rewrite bind_eq. cbn [get].
  rewrite Hpath, bind_eq.
  destruct (save_result d (_filename (self st) iteration) target st Htmp)
    as (st1 & -> & Hself & _ & Hfds & _ & Hfs).
  rewrite Hfault in *. rewrite !bind_eq.
  cbn [set_self get self files cp_interval with_files state_with_self].
  rewrite bind_eq.
  cbn [get self files cp_interval with_files state_with_self].
  rewrite Hself, decide_False by (rewrite length_app; simpl; lia).
  eexists. split; [done|]. cbn. repeat split; try done.
  intros q. rewrite Hfs. apply decide_ext. naive_solver.
Qed.

(** A checkpoint that writes and triggers no round appends the new name to
    the tracked list, adds exactly the new file, complete, and [_load] reads
    it back. *)
Theorem checkpoint_appends target (blank : trainer) (iteration : Z) st (d : string) :
  path (self st) = Some d →
  lookup_file (fs st)
    (d, ("tmp-" +:+ _filename (self st) iteration) +:+ mkstemp_suffix (env st))
  = None →
  save_fault (env st) = None →
  Z.of_nat (length (files (self st))) + 1 - cp_interval (self st) ≤ 5 →
  ∃ st', checkpoint target iteration st = (Ok tt, st')
    ∧ files (self st') = files (self st) ++ [_filename (self st) iteration]
    ∧ (∀ q, q ≠ (d, _filename (self st) iteration) →
            lookup_file (fs st') q = lookup_file (fs st) q)
    ∧ _load (Some d) (_filename (self st) iteration) blank st'
      = (Ok {| out := out blank; snapshot := snapshot target |}, st').
Proof.
  intros Hpath Htmp Hfault Hlen.
  destruct (checkpoint_no_round target iteration st d)
    as (st' & Hrun & Hself & _ & Hfs); try done.
  exists st'. split; [done|]. rewrite Hself. split; [done|]. split.
  - intros q Hq. rewrite Hfs. by rewrite decide_False.
  - apply load_run. rewrite Hfs. by rewrite decide_True.
Qed.

Lemma checkpoint_appends_witness :
  ∃ st', checkpoint fresh_weights 9 gc_state = (Ok tt, st')
    ∧ files (self st') = files (self gc_state) ++ [_filename (self gc_state) 9]
    ∧ (∀ q, q ≠ ("result", _filename (self gc_state) 9) →
            lookup_file (fs st') q = lookup_file (fs gc_state) q)
    ∧ _load (Some "result") (_filename (self gc_state) 9)
        {| out := "elsewhere"; snapshot := "blank" |} st'
      = (Ok {| out := "elsewhere"; snapshot := snapshot fresh_weights |}, st').
Proof.
  apply (checkpoint_appends fresh_weights {| out := "elsewhere"; snapshot := "blank" |}
           9 gc_state "result"); by vm_compute.
Defined.

(** Called directly on a controller that has no path, [checkpoint] raises
    [TypeError] before it touches anything; [__call__] first adopts
    [trainer.out] and then writes there. *)
Theorem call_adopts_trainer_out target (iteration : Z) st :
  path (self st) = None →
  lookup_file (fs st)
    (out target,
     ("tmp-" +:+ _filename (self st) iteration) +:+ mkstemp_suffix (env st))
  = None →
  save_fault (env st) = None →
  Z.of_nat (length (files (self st))) + 1 - cp_interval (self st) ≤ 5 →
  checkpoint target iteration st = (Raise TypeError, st)
  ∧ ∃ st', __call__ target iteration st = (Ok tt, st')
      ∧ path (self st') = Some (out target)
      ∧ files (self st') = files (self st) ++ [_filename (self st) iteration]
      ∧ lookup_file (fs st') (out target, _filename (self st) iteration)
        = Some (snapshot target).
Proof.
  intros Hpath Htmp Hfault Hlen. split.
  - unfold checkpoint, _save, _maybe_makedirs. rewrite !bind_eq. cbn [get].
    by rewrite Hpath.
  - unfold __call__. rewrite bind_eq. cbn [get]. rewrite Hpath, bind_eq.
    cbn [set_self].
    destruct (checkpoint_no_round target iteration
                (state_with_self st (with_path (self st) (Some (out target))))
                (out target))
      as (st' & Hrun & Hself & _ & Hfs); try done.
    exists st'. split; [exact Hrun|]. rewrite Hself. repeat split.
    rewrite Hfs. by rewrite decide_True.
Qed.

Lemma call_adopts_trainer_out_witness :
  checkpoint fresh_weights 1 pathless_state = (Raise TypeError, pathless_state)
  ∧ ∃ st', __call__ fresh_weights 1 pathless_state = (Ok tt, st')
      ∧ path (self st') = Some (out fresh_weights)
      ∧ files (self st')
        = files (self pathless_state) ++ [_filename (self pathless_state) 1]
      ∧ lookup_file (fs st') (out fresh_weights, _filename (self pathless_state) 1)
        = Some (snapshot fresh_weights).
Proof.
  apply (call_adopts_trainer_out fresh_weights 1 pathless_state); by vm_compute.
Defined.

(** The constructor in two steps: the directory, then the assertions. *)
Lemma init_eq (nm : option string) (comm : option Z) (cp gc : Z)
    (p : option string) st :
  let dirs := match p with
              | Some _ => _maybe_makedirs p
              | None => mret tt
              end in
  __init__ nm comm cp gc p st
  = match dirs st with
    | (Ok _, st1) =>
        match nm, comm with
        | Some nm', Some rank =>
            if decide (0 < cp ∧ 0 < gc) then
              (Ok tt,
               state_with_self st1
                 {| name := nm'; cp_interval := cp; gc_interval := gc;
                    comm_rank := rank; files := []; path := p |})
            else (Raise AssertionError, st1)
        | _, _ => (Raise AssertionError, st1)
        end
    | (Raise e, st1) => (Raise e, st1)
    end.
Proof.
  cbv zeta. unfold __init__. rewrite bind_eq.
  destruct (match p with Some _ => _maybe_makedirs p | None => mret () end st)
    as [[[]|e] st1]; [|done].
  destruct nm as [nm'|]; [|by destruct comm].
  destruct comm as [rank|]; repeat case_decide; try done; naive_solver.
Qed.

(** The constructor checks its arguments only after it has created the
    directory.  It returns normally exactly when the creation of the
    directory of a given path returned, [name] and [comm] are not [None]
    and both intervals are positive, and the controller it builds has the
    arguments as its fields and tracks nothing.  Once the directory is
    there, the only way to fail is an [AssertionError], and a construction
    rejected by an assertion leaves the directory behind.  No file changes
    in any case. *)
Theorem init_checks_intervals (nm : option string) (comm : option Z) (cp gc : Z)
    (p : option string) st :
  let dirs := match p with
              | Some _ => _maybe_makedirs p
              | None => mret tt
              end in
  let r := __init__ nm comm cp gc p st in
  (r.1 = Ok tt
   ↔ (dirs st).1 = Ok tt ∧ is_Some nm ∧ is_Some comm ∧ 0 < cp ∧ 0 < gc)
  ∧ (r.1 = Ok tt →
     nm = Some (name (self r.2)) ∧ comm = Some (comm_rank (self r.2))
     ∧ cp_interval (self r.2) = cp ∧ gc_interval (self r.2) = gc
     ∧ files (self r.2) = [] ∧ path (self r.2) = p)
  ∧ ((dirs st).1 = Ok tt → r.1 = Ok tt ∨ r.1 = Raise AssertionError)
  ∧ (r.1 = Raise AssertionError → ∀ d, p = Some d → is_Some (fs r.2 !! d))
  ∧ (∀ q, lookup_file (fs r.2) q = lookup_file (fs st) q).
Proof.
  intros dirs r. subst r. rewrite init_eq. fold dirs.
  assert (∃ st1, dirs st = (Ok tt, st1)
            ∧ (∀ d, p = Some d → is_Some (fs st1 !! d))
            ∧ ∀ q, lookup_file (fs st1) q = lookup_file (fs st) q)
    as (st1 & -> & Hdir & Hfs).
  { subst dirs. destruct p as [d|].
    - destruct (_maybe_makedirs_run d st) as (st1 & _ & Hrun & Hdir & Hfs & _).
      exists st1. repeat split; try done. by intros ? [= <-].
    - eexists. by repeat split. }
  destruct nm as [nm'|], comm as [rank|]; repeat case_decide; cbn;
    repeat split; try done; try naive_solver; try (intros (? & ? & ? & ?); lia);
    try (intros (_ & [? [=]] & _)); try (intros (_ & _ & [? [=]] & _)).
Qed.

Example init_rejected_run :
  let r := __init__ (Some "run") (Some 0) 0 5 (Some "logs") stray_state in
  r.1 = Raise AssertionError
  ∧ fs r.2 !! "logs" = Some ∅
  ∧ self r.2 = self stray_state
  ∧ (__init__ None (Some 0) 5 5 None stray_state).1 = Raise AssertionError
  ∧ (__init__ (Some "run") None 5 5 None stray_state).1 = Raise AssertionError
  ∧ (__init__ (Some "run") (Some 1) 5 5 (Some "result") stray_state).1 = Ok tt.
Proof. repeat split; by vm_compute. Qed.

End write_more.

(** ** More on recovery *)

Section resume_more.

Implicit Types (st : state) (target : trainer) (opt : option optimizer)
  (w : list Z).

(** [maybe_resume] in three steps: the path, the scan, the round, and then
    the adoption of the newest common iteration. *)
Lemma maybe_resume_eq target opt (p : option string) st :
  let d := match path (self st) with
           | Some d => d
           | None => default (out target) p
           end in
  let stA := match path (self st) with
             | Some _ => st
             | None => state_with_self st (with_path (self st) (Some d))
             end in
  let listing := match fs st !! d with
                 | Some entries => elements (dom entries)
                 | None => []
                 end in
  maybe_resume target opt p st
  = match scan_local (self stA) listing with
    | Raise e => (Raise e, stA)
    | Ok its =>
        match _sync_file_list false
                (state_with_self stA (with_files (self stA) (_filenames (self stA) its)))
        with
        | (Raise e, st2) => (Raise e, st2)
        | (Ok _, st2) =>
            (parsed ← lift (_parse_filenames (self st2) (files (self st2)));
             iters ← lift (unpack_iterations parsed);
             match iters with
             | i0 :: rest =>
                 target'' ← _load (path (self st2))
                              (_filename (self st2) (py_max i0 rest)) target;
                 match opt with
                 | Some _ => mret (target'', Some {| needs_broadcast := false |})
                 | None => mret (target'', None)
                 end
             | [] => mret (target, opt)
             end) st2
        end
    end.
Proof.
  intros d stA listing. unfold maybe_resume. rewrite bind_eq. cbn [get].
  rewrite bind_eq.
  assert (match path (self st) with
          | Some _ => mret ()
          | None =>
              match p with
              | Some d0 => set_self (λ me, with_path me (Some d0))
              | None => set_self (λ me, with_path me (Some (out target)))
              end
          end st = (Ok tt, stA)
          ∧ path (self stA) = Some d ∧ fs stA = fs st) as (-> & Hpath & Hfs).
  { subst stA d. destruct (path (self st)) eqn:Hp; [by rewrite Hp|].
    by destruct p. }
  rewrite bind_eq. cbn [get]. rewrite bind_eq, Hpath.
  assert (try_except (Os.listdir d) (λ _, mret []) stA = (Ok listing, stA)) as ->.
  { unfold try_except, Os.listdir. rewrite bind_eq. cbn [get]. rewrite Hfs.
    subst listing. by destruct (fs st !! d). }
  rewrite bind_eq. unfold lift at 1.
  destruct (scan_local (self stA) listing) as [its|]; [|done].
  rewrite bind_eq. cbn [set_self]. rewrite bind_eq.
  destruct (_sync_file_list false _) as [[[]|e] st2]; [|done].
  rewrite bind_eq. by cbn [get].
Qed.

Lemma py_max_spec (i0 : Z) (rest : list Z) :
  py_max i0 rest ∈ i0 :: rest ∧ ∀ i, i ∈ i0 :: rest → i ≤ py_max i0 rest.
Proof.
  unfold py_max. revert i0. induction rest as [|j rest IH]; intros i0.
  - split; [by left|]. intros i Hi. apply list_elem_of_singleton in Hi. simpl. lia.
  - cbn [foldl]. destruct (IH (Z.max i0 j)) as [Hin Hmax]. split.
    + apply elem_of_cons in Hin as [Heq|Hin]; [|by do 2 right].
      rewrite Heq. destruct (Z.max_spec i0 j) as [[_ ->]|[_ ->]];
        [right|]; by left.
    + intros i Hi.
      assert (i ≤ Z.max i0 j ∨ i ∈ rest) as [Hle|Hin'].
      { rewrite !elem_of_cons in Hi. destruct Hi as [->|[->|Hi]]; [left|left|by right]; lia. }
      * etrans; [exact Hle|]. apply Hmax. by left.
      * apply Hmax. by right.
Qed.

Lemma parse_filenames_encoded (me : DistCPRExtension) w :
  Py.contains "." (name me) = false →
  _parse_filenames me (_filenames me w)
  = Ok ((λ i, Some (name me, comm_rank me, i)) <$> w).
Proof.
  intros Hdot. induction w as [|i w IH]; [done|].
  cbn [_filenames fmap list_fmap _parse_filenames].
  rewrite decode_encoded by done. unfold _filenames in IH. by rewrite IH.
Qed.

Lemma unpack_encoded (nm : string) (rank : Z) w :
  unpack_iterations ((λ i, Some (nm, rank, i)) <$> w) = Ok w.
Proof. induction w as [|i w IH]; [done|]. cbn. by rewrite IH. Qed.

(** The adoption step, for a tracked list of encoded names. *)
Lemma adopt_eq target opt st w (d : string) :
  Py.contains "." (name (self st)) = false →
  files (self st) = _filenames (self st) w →
  path (self st) = Some d →
  (parsed ← lift (_parse_filenames (self st) (files (self st)));
   iters ← lift (unpack_iterations parsed);
   match iters with
   | i0 :: rest =>
       target'' ← _load (path (self st)) (_filename (self st) (py_max i0 rest)) target;
       match opt with
       | Some _ => mret (target'', Some {| needs_broadcast := false |})
       | None => mret (target'', None)
       end
   | [] => mret (target, opt)
   end) st
  = match w with
    | [] => (Ok (target, opt), st)
    | i0 :: rest =>
        match lookup_file (fs st) (d, _filename (self st) (py_max i0 rest)) with
        | Some bytes =>
            (Ok ({| out := out target; snapshot := bytes |},
                 (λ _, {| needs_broadcast := false |}) <$> opt), st)
        | None => (Raise OSError_ENOENT, st)
        end
    end.
Proof.
  intros Hdot Hfiles Hpath. rewrite Hfiles, parse_filenames_encoded by done.
  rewrite bind_eq. cbn [lift]. rewrite unpack_encoded, bind_eq. cbn [lift].
  destruct w as [|i0 rest]; [done|].
  rewrite bind_eq, Hpath.
  destruct (lookup_file (fs st) (d, _filename (self st) (py_max i0 rest)))
    as [bytes|] eqn:Hfile.
  - rewrite (load_run _ _ _ _ _ Hfile). by destruct opt.
  - unfold _load, Os.join. rewrite bind_eq. cbn [mret M_ret].
    unfold Os.load_npz. rewrite bind_eq. cbn [get]. by rewrite Hfile.
Qed.

(** A round without removal that adopts a list. *)
Lemma sync_keep_run st w :
  agreed st = Some w →
  _sync_file_list false st
  = (Ok tt, state_with_self st (with_files (self st) (_filenames (self st) w))).
Proof.
  unfold agreed. rewrite sync_cases. case_decide.
  - destruct (gather_out (env st)) as [[|fl0 fls]|]; try done.
    destruct (coordinate (self st) fl0 fls); [|done]. by intros [= ->].
  - by intros [= ->].
Qed.

Lemma filename_ext (me' me : DistCPRExtension) (i : Z) :
  name me' = name me → comm_rank me' = comm_rank me →
  _filename me' i = _filename me i.
Proof. intros Hname Hrank. unfold _filename. by rewrite Hname, Hrank. Qed.

Lemma filenames_ext (me me' : DistCPRExtension) w :
  name me' = name me → comm_rank me' = comm_rank me →
  _filenames me' w = _filenames me w.
Proof. intros Hname Hrank. unfold _filenames, _filename. by rewrite Hname, Hrank. Qed.

(** The state in which the round of [maybe_resume] starts. *)
Lemma resume_start target (p : option string) st :
  let d := match path (self st) with
           | Some d => d
           | None => default (out target) p
           end in
  let stA := match path (self st) with
             | Some _ => st
             | None => state_with_self st (with_path (self st) (Some d))
             end in
  name (self stA) = name (self st) ∧ cp_interval (self stA) = cp_interval (self st)
  ∧ comm_rank (self stA) = comm_rank (self st) ∧ path (self stA) = Some d
  ∧ env stA = env st ∧ fs stA = fs st ∧ seen stA = seen st
  ∧ open_fds stA = open_fds st.
Proof. cbv zeta. by destruct (path (self st)) eqn:Hp. Qed.

Lemma scan_local_ok (me : DistCPRExtension) (l : list string) :
  (∀ f, f ∈ l → ∃ t, _parse_filename me f = Ok t) →
  ∃ its, scan_local me l = Ok its.
Proof.
  intros Hok. unfold scan_local.
  assert (∃ parsed, _parse_filenames me l = Ok parsed) as [parsed ->];
    [|by eexists].
  induction l as [|f l IH]; [by eexists|].
  destruct (Hok f) as [t Ht]; [by left|].
  destruct IH as [parsed Hp]; [intros; apply Hok; by right|].
  cbn [_parse_filenames]. rewrite Ht, Hp. by eexists.
Qed.

(** Recovery loads the newest iteration the round adopted: when
    [maybe_resume] returns normally after a round that adopted a non-empty
    list, the target holds the bytes of this rank's file of the largest
    iteration of the list. *)
Theorem maybe_resume_loads_newest target opt (p : option string) st
    (target' : trainer) (opt' : option optimizer) st' w :
  let d := match path (self st) with
           | Some d => d
           | None => default (out target) p
           end in
  maybe_resume target opt p st = (Ok (target', opt'), st') →
  agreed st = Some w →
  w ≠ [] →
  Py.contains "." (name (self st)) = false →
  ∃ m, m ∈ w ∧ (∀ i, i ∈ w → i ≤ m)
       ∧ lookup_file (fs st) (d, _filename (self st) m) = Some (snapshot target')
       ∧ out target' = out target.
Proof.
  intros d Hrun Hagreed Hne Hdot. rewrite maybe_resume_eq in Hrun.
  cbv zeta in Hrun. fold d in Hrun.
  pose proof (resume_start target p st) as HA. cbv zeta in HA. fold d in HA.
  set (stA := match path (self st) with
              | Some _ => st
              | None => state_with_self st (with_path (self st) (Some d))
              end) in *.
  destruct HA as (Hname & Hcp & Hrank & Hpath & Henv & Hfs & _).
  destruct (scan_local (self stA) _) as [its|]; [|done].
  rewrite (sync_keep_run _ w) in Hrun by by rewrite <-Hagreed; apply agreed_ext.
  rewrite (adopt_eq _ _ _ w d) in Hrun;
    [|cbn [self name state_with_self with_files]; by rewrite Hname|done|done].
  destruct w as [|i0 rest]; [done|].
  cbn [fs self state_with_self with_files] in Hrun.
  destruct (py_max_spec i0 rest) as [Hin Hmax].
  rewrite (filename_ext _ (self st)) in Hrun by done.
  rewrite Hfs in Hrun.
  destruct (lookup_file (fs st) (d, _filename (self st) (py_max i0 rest)))
    as [bytes|] eqn:Hfile; [|done].
  injection Hrun as <- _ _. by exists (py_max i0 rest).
Qed.

Lemma maybe_resume_loads_newest_witness :
  ∃ m, m ∈ [3] ∧ (∀ i, i ∈ [3] → i ≤ m)
       ∧ lookup_file (fs fallback_state) ("result", _filename (self fallback_state) m)
         = Some "three"
       ∧ out {| out := "result"; snapshot := "three" |} = out fresh_weights.
Proof.
  apply (maybe_resume_loads_newest fresh_weights (Some {| needs_broadcast := true |})
           None fallback_state {| out := "result"; snapshot := "three" |}
           (Some {| needs_broadcast := false |})
           (maybe_resume fresh_weights (Some {| needs_broadcast := true |}) None
              fallback_state).2 [3]); by vm_compute.
Defined.

(** No fallback at load, for a run whose name has no dot.  When no entry
    of the directory makes the scan raise, the round adopts a list, and
    this rank's file of the largest iteration of the list is missing,
    [maybe_resume] raises the error of the load, whatever older generations
    are there, and changes no file.  (With a dot in the run name the names
    of the adopted list do not decode, and on a rank other than the root
    line 252 raises before the load: [resume_dotted_run].) *)
Theorem maybe_resume_missing_file target opt (p : option string) st w (m : Z) :
  let d := match path (self st) with
           | Some d => d
           | None => default (out target) p
           end in
  (∀ f bytes, lookup_file (fs st) (d, f) = Some bytes →
     ∃ t, _parse_filename (self st) f = Ok t) →
  agreed st = Some w →
  Py.contains "." (name (self st)) = false →
  m ∈ w → (∀ i, i ∈ w → i ≤ m) →
  lookup_file (fs st) (d, _filename (self st) m) = None →
  ∃ st', maybe_resume target opt p st = (Raise OSError_ENOENT, st')
         ∧ fs st' = fs st.
Proof.
  intros d Hscan Hagreed Hdot Hm Hmax Hfile. rewrite maybe_resume_eq.
  cbv zeta. fold d.
  pose proof (resume_start target p st) as HA. cbv zeta in HA. fold d in HA.
  set (stA := match path (self st) with
              | Some _ => st
              | None => state_with_self st (with_path (self st) (Some d))
              end) in *.
  destruct HA as (Hname & Hcp & Hrank & Hpath & Henv & Hfs & _).
  edestruct (scan_local_ok (self stA)) as [its ->].
  { intros f Hf. destruct (fs st !! d) as [entries|] eqn:Hd;
      [|by apply elem_of_nil in Hf].
    apply elem_of_elements, elem_of_dom in Hf as [bytes Hbytes].
    destruct (Hscan f bytes) as [t Ht].
    { unfold lookup_file. cbn. by rewrite Hd. }
    exists t. revert Ht. unfold _parse_filename. by rewrite Hname. }
  rewrite (sync_keep_run _ w) by by rewrite <-Hagreed; apply agreed_ext.
  rewrite (adopt_eq _ _ _ w d);
    [|cbn [self name state_with_self with_files]; by rewrite Hname|done|done].
  destruct w as [|i0 rest]; [by apply elem_of_nil in Hm|].
  cbn [fs self state_with_self with_files].
  destruct (py_max_spec i0 rest) as [Hin Hle].
  assert (py_max i0 rest = m) as ->.
  { apply Z.le_antisymm; [by apply Hmax|by apply Hle]. }
  rewrite (filename_ext _ (self st)) by done.
  rewrite Hfs, Hfile. eexists. split; [done|]. done.
Qed.

Lemma maybe_resume_missing_file_witness :
  ∃ st', maybe_resume fresh_weights None None lost_newest_state
         = (Raise OSError_ENOENT, st')
         ∧ fs st' = fs lost_newest_state.
Proof.
  apply (maybe_resume_missing_file fresh_weights None None lost_newest_state [3; 5] 5).
  - intros f bytes Hf. cbn in Hf.
    destruct (decide (f = "run.0.3")) as [->|Hne]; [eexists; by vm_compute|].
    exfalso. revert Hf. unfold lookup_file. cbn.
    rewrite lookup_singleton_eq. cbn. by rewrite lookup_singleton_ne.
  - by vm_compute.
  - by vm_compute.
  - apply elem_of_cons. right. apply elem_of_cons. by left.
  - intros i Hi. rewrite !elem_of_cons in Hi.
    destruct Hi as [->|[->|Hi]]; [lia|lia|by apply elem_of_nil in Hi].
  - by vm_compute.
Defined.

(** Rank 1 of a run named ["exp.1"]: the broadcast delivers iteration 3,
    and the comprehension of line 252 fails to unpack the name the round
    has just built, before anything is loaded. *)
Example resume_dotted_run :
  let st := {| self := {| name := "exp.1"; cp_interval := 5; gc_interval := 5;
                          comm_rank := 1; files := []; path := Some "result" |};
               fs := {[ "result" := ∅ ]}; open_fds := ∅; seen := [];
               env := {| mkstemp_suffix := "k3x9"; save_fault := None;
                         gather_out := None; bcast_in := [3] |} |} in
  agreed st = Some [3]
  ∧ (maybe_resume fresh_weights None None st).1 = Raise TypeError
  ∧ files (self (maybe_resume fresh_weights None None st).2) = ["exp.1.1.3"].
Proof. repeat split; by vm_compute. Qed.

Lemma sync_keep_frame {C : Type} (proj : state → C) :
  (∀ st me, proj (state_with_self st (with_files (self st) me)) = proj st) →
  preserves proj (_sync_file_list false).
Proof.
  intros Hproj st. rewrite sync_cases.
  repeat case_match; try done; unfold rebuild; apply Hproj.
Qed.

(** Recovery is read-only: however [maybe_resume] ends, every file, the
    history of the file system and the open descriptors are as before. *)
Theorem maybe_resume_read_only target opt (p : option string) st :
  let st' := (maybe_resume target opt p st).2 in
  fs st' = fs st ∧ seen st' = seen st ∧ open_fds st' = open_fds st.
Proof.
  assert (preserves (λ st, (fs st, seen st, open_fds st))
            (maybe_resume target opt p)) as Hkeep.
  { pose proof (sync_keep_frame (λ st, (fs st, seen st, open_fds st))
                  (λ _ _, eq_refl)) as Hsync.
    unfold maybe_resume, _load, Os.join, Os.load_npz, Os.listdir.
    solve_preserves. }
  specialize (Hkeep st). cbv zeta. by injection Hkeep as -> -> ->.
Qed.

(** The directory of recovery: a path the controller already has wins over
    the argument [path], which wins over [trainer.out]; however
    [maybe_resume] ends, that is the controller's path afterwards. *)
Theorem maybe_resume_path target opt (p : option string) st :
  path (self (maybe_resume target opt p st).2)
  = Some match path (self st) with
         | Some d => d
         | None => default (out target) p
         end.
Proof.
  rewrite maybe_resume_eq. cbv zeta.
  pose proof (resume_start target p st) as HA. cbv zeta in HA.
  set (d := match path (self st) with
            | Some d => d
            | None => default (out target) p
            end) in *.
  set (stA := match path (self st) with
              | Some _ => st
              | None => state_with_self st (with_path (self st) (Some d))
              end) in *.
  destruct HA as (_ & _ & _ & Hpath & _).
  destruct (scan_local (self stA) _) as [its|]; [|done].
  pose proof (sync_keep_frame (λ st, path (self st)) (λ _ _, eq_refl)
                (state_with_self stA
                   (with_files (self stA) (_filenames (self stA) its)))) as Hsync.
  destruct (_sync_file_list false _) as [[[]|e] st2]; cbn [snd] in Hsync;
    [|cbn [snd]; rewrite Hsync; exact Hpath].
  match goal with
  | |- path (self (?tail st2).2) = _ =>
      assert (preserves (λ st, st) tail) as Htail
        by (unfold _load, Os.join, Os.load_npz; solve_preserves)
  end.
  rewrite (Htail st2), Hsync. exact Hpath.
Qed.

End resume_more.

(** ** The start-up scan *)

Section scan_more.

Implicit Types (me : DistCPRExtension) (l : list string).

Lemma parse_filenames_elem me l (parsed : list (option (string * Z * Z))) :
  _parse_filenames me l = Ok parsed →
  ∀ t, t ∈ parsed ↔ ∃ f, f ∈ l ∧ _parse_filename me f = Ok t.
Proof.
  revert parsed. induction l as [|f l IH]; intros parsed; cbn [_parse_filenames].
  - intros [= <-] t. split; [by intros ?%elem_of_nil|].
    by intros (? & ?%elem_of_nil & _).
  - destruct (_parse_filename me f) as [t0|] eqn:Hf; [|done].
    destruct (_parse_filenames me l) as [ts|]; [|done].
    intros [= <-] t. rewrite elem_of_cons, (IH ts eq_refl). split.
    + intros [->|(f' & Hin & Hf')]; [exists f|exists f']; split; try done;
        [by left|by right].
    + intros (f' & Hin & Hf'). apply elem_of_cons in Hin as [->|Hin].
      * left. congruence.
      * right. eauto.
Qed.

(** The scan adopts the iterations of this rank's files only: an
    iteration is found exactly when some listed name decodes to this run,
    this rank and that iteration.  Files of other ranks in the same
    directory are left out. *)
Theorem scan_local_own_rank me l (its : list Z) :
  scan_local me l = Ok its →
  ∀ i, i ∈ its ↔
       ∃ f, f ∈ l ∧ _parse_filename me f = Ok (Some (name me, comm_rank me, i)).
Proof.
  unfold scan_local.
  destruct (_parse_filenames me l) as [parsed|] eqn:Hparsed; [|done].
  intros [= <-] i. unfold local_iterations. rewrite list_elem_of_omap.
  setoid_rewrite (parse_filenames_elem me l parsed Hparsed). split.
  - intros (t & (f & Hin & Hf) & Hkeep).
    destruct t as [[[nm r] i']|]; [|done].
    destruct (String.eqb_spec nm (name me)) as [->|]; [|done].
    destruct (Z.eqb_spec r (comm_rank me)) as [->|]; [|done].
    injection Hkeep as ->. eauto.
  - intros (f & Hin & Hf). eexists. split; [eauto|].
    cbn. by rewrite String.eqb_refl, Z.eqb_refl.
Qed.

Lemma scan_local_own_rank_witness :
  3 ∈ [3] ↔
  ∃ f, f ∈ ["run.0.3"; "run.1.5"; "notes.txt"]
       ∧ _parse_filename run0 f = Ok (Some (name run0, comm_rank run0, 3)).
Proof.
  apply (scan_local_own_rank run0 ["run.0.3"; "run.1.5"; "notes.txt"] [3]).
  by vm_compute.
Defined.

End scan_more.

(** ** Timing statistics *)

Section stats_more.

Context {time : Type} (minus : time → time → time).

Implicit Types (s : _CPRStats (time := time)) (calls : list (stats_call (time := time))).

Lemma stats_run_snoc calls (c : stats_call) s :
  stats_run minus (calls ++ [c]) s = stats_step minus (stats_run minus calls s) c.
Proof. unfold stats_run. by rewrite foldl_app. Qed.

Lemma count_calls_snoc (p : stats_call → bool) calls (c : stats_call (time := time)) :
  count_calls p (calls ++ [c]) = (count_calls p calls + if p c then 1 else 0)%nat.
Proof.
  induction calls as [|c' calls IH]; cbn; [destruct (p c); lia|].
  rewrite IH. destruct (p c'), (p c); lia.
Qed.

(** However [start] and [end] are called on a fresh object, there are
    never more timings than calls of [end], nor more timings and pending
    measurements than calls of [start]: an [end] that no [start] precedes
    records nothing, and a [start] that no [end] follows is forgotten at the
    next [start]. *)
Theorem stats_counts calls :
  let s := stats_run minus calls stats_new in
  (length (timings s) ≤ count_calls is_end calls)%nat
  ∧ (length (timings s) + pending s ≤ count_calls is_start calls)%nat.
Proof.
  cbv zeta. induction calls as [|c calls IH] using rev_ind; [cbn; lia|].
  rewrite stats_run_snoc, !count_calls_snoc.
  destruct IH as [IHe IHs]. revert IHe IHs.
  generalize (stats_run minus calls stats_new). intros s.
  destruct c as [now|now]; unfold pending; cbn.
  - destruct (begin s); cbn; lia.
  - unfold end_. destruct (begin s) eqn:Hb; cbn; rewrite ?Hb, ?length_app; cbn; lia.
Qed.

(** Every timing of a fresh object comes from a call of [start], whose
    reading is its begin, followed by a call of [end], whose reading minus
    the begin is its duration. *)
Theorem stats_timing_sources calls (tm : timing) :
  tm ∈ timings (stats_run minus calls stats_new) →
  ∃ e, Start (timing_b tm) ∈ calls ∧ End e ∈ calls
       ∧ timing_d tm = minus e (timing_b tm).
Proof.
  assert (∀ calls,
            (∀ tm, tm ∈ timings (stats_run minus calls stats_new) →
               ∃ e, Start (timing_b tm) ∈ calls ∧ End e ∈ calls
                    ∧ timing_d tm = minus e (timing_b tm))
            ∧ (∀ b0, begin (stats_run minus calls stats_new) = Some b0 →
                 Start b0 ∈ calls)) as Hinv; [|apply Hinv].
  clear calls tm. intros calls.
  induction calls as [|c calls [IHt IHb]] using rev_ind.
  { split; [by intros tm ?%elem_of_nil|done]. }
  rewrite stats_run_snoc. revert IHt IHb.
  generalize (stats_run minus calls stats_new). intros s IHt IHb.
  destruct c as [now|now]; cbn [stats_step start end_ timings begin].
  - split.
    + intros tm Htm. destruct (IHt tm Htm) as (e & Hs & He & Hd).
      exists e. rewrite !elem_of_app. auto.
    + intros b0 [= <-]. apply elem_of_app. right. by left.
  - unfold end_. destruct (begin s) as [b0|] eqn:Hb.
    + split; [|done]. cbn [timings]. intros tm Htm.
      apply elem_of_app in Htm as [Htm|Htm].
      * destruct (IHt tm Htm) as (e & Hs & He & Hd).
        exists e. rewrite !elem_of_app. auto.
      * apply list_elem_of_singleton in Htm as ->. cbn.
        exists now. rewrite !elem_of_app. split; [left; by apply IHb|].
        split; [right; by left|done].
    + split.
      * intros tm Htm. destruct (IHt tm Htm) as (e & Hs & He & Hd).
        exists e. rewrite !elem_of_app. auto.
      * intros b0 Hb0. congruence.
Qed.

End stats_more.

Lemma stats_timing_sources_witness :
  ∃ e, Start (timing_b {| timing_b := 7; timing_d := 2 |}) ∈ [Start 1; Start 7; End 9; End 12]
       ∧ End e ∈ [Start 1; Start 7; End 9; End 12]
       ∧ timing_d {| timing_b := 7; timing_d := 2 |}
         = Z.sub e (timing_b {| timing_b := 7; timing_d := 2 |}).
Proof.
  apply (stats_timing_sources Z.sub [Start 1; Start 7; End 9; End 12]
           {| timing_b := 7; timing_d := 2 |}).
  cbn. by left.
Defined.

(** A write that failed between [start] and [end] leaves no timing: the
    next [start] replaces its reading. *)
Example stats_run_ex :
  timings (stats_run Z.sub [Start 1; Start 7; End 9; End 12] stats_new)
  = [{| timing_b := 7; timing_d := 2 |}]
  ∧ report (λ _, "stats") (stats_run Z.sub [End 3] stats_new) = "No stats available".
Proof. by split. Qed.

Lemma maybe_resume_tracks_witness :
  (comm_rank (self fallback_state) = 0
   ∧ gather_out (env fallback_state) = Some []
   ∧ files (self (maybe_resume fresh_weights None None fallback_state).2) = [])
  ∨ ∃ w, agreed fallback_state = Some w
         ∧ files (self (maybe_resume fresh_weights None None fallback_state).2)
           = _filenames (self fallback_state) w.
Proof.
  apply (maybe_resume_tracks fresh_weights None None fallback_state
           ({| out := "result"; snapshot := "three" |}, None)).
  by vm_compute.
Defined.
